(** * Lizenzverweisgenerator: licence registry, Asset and QuestionnairePage

    A shallow embedding of the licence list (app/LICENCES), of the two
    [Asset] implementations and of the questionnaire page logic
    ([QuestionnairePage._applyLogic] and its helpers), with the properties
    the specification states about them.

    Conventions.  A JavaScript string is a [string] of one-byte characters.
    A function that can throw returns a [res]; code that changes an object
    is a function on the state of that object.  Events that the page
    triggers are appended to a trace, an 'update' together with the
    questionnaire state as it is when the event is triggered (jQuery runs the
    listeners inside [trigger]).  [Licence], [Api] and [QuestionnaireState]
    are not among the sources: what the embedded code needs of them is
    modelled from the specification and marked as such, or is a parameter. *)

From Stdlib Require Import Ascii String ZArith Bool List Lia DecimalString.
From stdpp Require Import base option list gmap strings.

Local Open Scope string_scope.
Local Open Scope Z_scope.

(** ** Regular expressions, as far as the licence list uses them

    The patterns of the licence list are JavaScript regular expression
    literals with the [i] flag.  [RegExp.prototype.test] only reports
    whether some match exists, so a backtracking matcher in
    continuation-passing style is enough: greediness does not change the
    answer. *)

Module RegExp.

Inductive re : Type :=
| Eps                      (* the empty pattern *)
| Chr (c : ascii)          (* a literal character *)
| Dot                      (* .  : anything but a line terminator *)
| NoneOf (cs : list ascii) (* [^...] *)
| Seq (r1 r2 : re)
| Alt (r1 r2 : re)         (* r1|r2 *)
| Opt (r : re)             (* r? *)
| Star (r : re)            (* r* *)
| Bol                      (* ^ *)
| Eol                      (* $ *)
| WordB.                   (* \b *)

(** [r+] is [r] followed by [r*]. *)
Definition Plus (r : re) : re := Seq r (Star r).

(** A literal run of characters. *)
Fixpoint Lit (s : string) : re :=
  match s with
  | EmptyString => Eps
  | String c EmptyString => Chr c
  | String c s' => Seq (Chr c) (Lit s')
  end.

Definition code (c : ascii) : nat := nat_of_ascii c.

(** Canonicalize of the [i] flag: upper-casing; a character beyond ASCII is
    never mapped onto an ASCII one. *)
Definition canonicalize (c : ascii) : ascii :=
  if ((97 <=? code c) && (code c <=? 122))%nat
  then ascii_of_nat (code c - 32) else c.

Definition ci_eqb (a b : ascii) : bool :=
  (code (canonicalize a) =? code (canonicalize b))%nat.

(** LineTerminator: LF and CR (the other two are outside one-byte
    characters). *)
Definition is_line_terminator (c : ascii) : bool :=
  ((code c =? 10) || (code c =? 13))%nat.

(** The characters [\b] counts as word characters: [A-Za-z0-9_]. *)
Definition is_word_char (c : ascii) : bool :=
  (((48 <=? code c) && (code c <=? 57))
   || ((65 <=? code c) && (code c <=? 90))
   || ((97 <=? code c) && (code c <=? 122))
   || (code c =? 95))%nat.

Definition is_word (o : option ascii) : bool :=
  match o with Some c => is_word_char c | None => false end.

(** [matches r prev s k]: [r] matches a prefix of [s], where [prev] is the
    character just before [s] ([None] at the start of the input), and the
    continuation [k] accepts what follows. *)
Fixpoint matches (r : re) (prev : option ascii) (s : list ascii)
    (k : option ascii -> list ascii -> bool) {struct r} : bool :=
  match r with
  | Eps => k prev s
  | Chr c =>
      match s with
      | x :: s' => if ci_eqb c x then k (Some x) s' else false
      | [] => false
      end
  | Dot =>
      match s with
      | x :: s' => if is_line_terminator x then false else k (Some x) s'
      | [] => false
      end
  | NoneOf cs =>
      match s with
      | x :: s' => if existsb (fun c => ci_eqb c x) cs then false else k (Some x) s'
      | [] => false
      end
  | Seq r1 r2 => matches r1 prev s (fun p' s' => matches r2 p' s' k)
  | Alt r1 r2 => matches r1 prev s k || matches r2 prev s k
  | Opt r1 => matches r1 prev s k || k prev s
  | Star r1 =>
      (* an iteration that consumes nothing is rejected, so [length s]
         iterations are all there can be *)
      (fix star (n : nat) (prev : option ascii) (s : list ascii) {struct n} : bool :=
         k prev s ||
         match n with
         | O => false
         | S n' =>
             matches r1 prev s
               (fun p' s' => (length s' <? length s)%nat && star n' p' s')
         end) (length s) prev s
  | Bol => match prev with None => k prev s | Some _ => false end
  | Eol => match s with [] => k prev s | _ :: _ => false end
  | WordB =>
      if xorb (is_word prev) (is_word (hd_error s)) then k prev s else false
  end.

(** The match is tried at every start position. *)
Fixpoint search (r : re) (prev : option ascii) (s : list ascii) : bool :=
  matches r prev s (fun _ _ => true) ||
  match s with
  | [] => false
  | x :: s' => search r (Some x) s'
  end.

(** [RegExp.prototype.test] *)
Definition test (r : re) (s : string) : bool :=
  search r None (list_ascii_of_string s).

End RegExp.

(** ** Licences *)

Module Licence.

Import RegExp.

(** The fourth constructor argument is a regular expression literal, except
    for the last entry of the list, which passes the empty string. *)
Inductive pattern : Type :=
| PRegExp (r : re)
| PEmptyString.

(** [new Licence( id, groups, name, regExp, url )]; [url] is omitted by some
    entries. *)
Record t : Type := Licence {
  id : string;
  groups : list string;
  name : string;
  regExp : pattern;
  url : option string
}.

(** Modelled from the spec: [Licence.match], the "match rule" of a licence
    definition, is not part of the sources.  A regular expression accepts
    what [test] accepts; the "unknown" entry's empty pattern "accepts
    empty/anything-unmatched". *)
Definition match_ (l : t) (s : string) : bool :=
  match regExp l with
  | PRegExp r => test r s
  | PEmptyString => true
  end.

(** Modelled from the spec: [Licence.isInGroup(tag)] "tests membership in the
    licence's groups set"; the method itself is not part of the sources. *)
Definition isInGroup (l : t) (tag : string) : bool :=
  existsb (String.eqb tag) (groups l).

End Licence.

Module LICENCES.

Import RegExp Licence.

(** [(-|\/)] *)
Definition sep : re := Alt (Chr "-") (Chr "/").

(** The tail of the unported patterns: the group [([^\-]+.+|-migrated)],
    starred, in an optional group, then [$]. *)
Definition version_tail : re :=
  Seq (Opt (Star (Alt (Seq (Plus (NoneOf ["-"%char])) (Plus Dot)) (Lit "-migrated")))) Eol.

(** [(Bild-)?] *)
Definition bild : re := Opt (Lit "Bild-").

Definition PD : Licence.t :=
  Licence "PD" ["pd"] "Public Domain"
    (PRegExp (Seq Bol (Seq bild (Seq (Alt (Lit "PD") (Lit "Public domain")) WordB))))
    None.

Definition cc_zero : Licence.t :=
  Licence "cc-zero" ["cc"; "cc0"] "CC0 1.0"
    (PRegExp (Seq Bol (Alt (Lit "cc-zero") (Lit "Bild-CC-0"))))
    (Some "http://creativecommons.org/publicdomain/zero/1.0/legalcode/").

(** [/^CC-BY(-|\/)V.0(-|\/)DE/i]; the dot of the version is unescaped. *)
Definition by_de (v : ascii) : re :=
  Seq Bol (Seq (Lit "CC-BY") (Seq sep (Seq (Chr v) (Seq Dot (Seq (Chr "0")
    (Seq sep (Lit "DE"))))))).

(** [/^CC-BY-V.0] followed by [version_tail], flag [i] *)
Definition by_ (v : ascii) : re :=
  Seq Bol (Seq (Lit "CC-BY-") (Seq (Chr v) (Seq Dot (Seq (Chr "0") version_tail)))).

(** [/^(Bild-)?CC-BY-SA(-|\/)V.0(-|\/)DE/i] *)
Definition by_sa_de (v : ascii) : re :=
  Seq Bol (Seq bild (Seq (Lit "CC-BY-SA") (Seq sep (Seq (Chr v) (Seq Dot
    (Seq (Chr "0") (Seq sep (Lit "DE")))))))).

(** [/^(Bild-)?CC-BY-SA(-|\/)V.0] followed by [version_tail], flag [i] *)
Definition by_sa (v : ascii) : re :=
  Seq Bol (Seq bild (Seq (Lit "CC-BY-SA") (Seq sep (Seq (Chr v) (Seq Dot
    (Seq (Chr "0") version_tail)))))).

Definition cc_by_2_0_de : Licence.t :=
  Licence "cc-by-2.0-de" ["cc"; "cc2"; "cc2de"; "ccby"] "CC BY 2.0 DE"
    (PRegExp (by_de "2"))
    (Some "http://creativecommons.org/licenses/by/2.0/de/legalcode/").

Definition cc_by_3_0_de : Licence.t :=
  Licence "cc-by-3.0-de" ["cc"; "cc3"; "ccby"] "CC BY 3.0 DE"
    (PRegExp (by_de "3"))
    (Some "http://creativecommons.org/licenses/by/3.0/de/legalcode/").

Definition cc_by_3_0 : Licence.t :=
  Licence "cc-by-3.0" ["cc"; "cc3"; "ccby"] "CC BY 3.0"
    (PRegExp (by_ "3"))
    (Some "http://creativecommons.org/licenses/by/3.0/legalcode/").

Definition cc_by_4_0 : Licence.t :=
  Licence "cc-by-4.0" ["cc"; "cc4"; "ccby"] "CC BY 4.0"
    (PRegExp (by_ "4"))
    (Some "http://creativecommons.org/licenses/by/4.0/legalcode/").

Definition cc_by_sa_2_0_de : Licence.t :=
  Licence "cc-by-sa-2.0-de" ["cc"; "cc2"; "cc2de"] "CC BY-SA 2.0 DE"
    (PRegExp (by_sa_de "2"))
    (Some "http://creativecommons.org/licenses/by-sa/2.0/de/legalcode/").

Definition cc_by_sa_3_0_de : Licence.t :=
  Licence "cc-by-sa-3.0-de" ["cc"; "cc3"] "CC BY-SA 3.0 DE"
    (PRegExp (by_sa_de "3"))
    (Some "http://creativecommons.org/licenses/by-sa/3.0/de/legalcode/").

Definition cc_by_sa_3_0 : Licence.t :=
  Licence "cc-by-sa-3.0" ["cc"; "cc3"] "CC BY-SA 3.0"
    (PRegExp (by_sa "3"))
    (Some "http://creativecommons.org/licenses/by-sa/3.0/legalcode/").

Definition cc_by_sa_4_0 : Licence.t :=
  Licence "cc-by-sa-4.0" ["cc"; "cc4"] "CC BY-SA 4.0"
    (PRegExp (by_sa "4"))
    (Some "http://creativecommons.org/licenses/by-sa/4.0/legalcode/").

(** [/CC-BY/i] *)
Definition cc : Licence.t :=
  Licence "cc" ["unsupported"] "CC" (PRegExp (Lit "CC-BY")) None.

Definition unknown : Licence.t :=
  Licence "unknown" ["unknown"] "Unknown" PEmptyString (Some "").

(** The array the module returns, in its order. *)
Definition licences : list Licence.t :=
  [ PD; cc_zero;
    cc_by_2_0_de; cc_by_3_0_de; cc_by_3_0; cc_by_4_0;
    cc_by_sa_2_0_de; cc_by_sa_3_0_de; cc_by_sa_3_0; cc_by_sa_4_0;
    cc; unknown ].

(** Modelled from the spec: the lookup [find] over the list is not part of
    the sources.  It "iterates the ordered licence list; returns the first
    entry whose match rule accepts the input; if none matches, returns the
    designated unknown licence". *)
Fixpoint find_in (ls : list Licence.t) (s : string) : option Licence.t :=
  match ls with
  | [] => None
  | l :: ls' => if Licence.match_ l s then Some l else find_in ls' s
  end.

Definition find (s : string) : Licence.t :=
  match find_in licences s with
  | Some l => l
  | None => unknown
  end.

(** No entry before position [k] accepts [s]. *)
Definition none_before (ls : list Licence.t) (s : string) (k : nat) : Prop :=
  ∀ m lm, (m < k)%nat → ls !! m = Some lm → Licence.match_ lm s = false.

(** The specific CC BY and CC BY-SA entries, which stand before the broad
    entry [cc]. *)
Definition ccby_family : list Licence.t :=
  [ cc_by_2_0_de; cc_by_3_0_de; cc_by_3_0; cc_by_4_0;
    cc_by_sa_2_0_de; cc_by_sa_3_0_de; cc_by_sa_3_0; cc_by_sa_4_0 ].

End LICENCES.

(** ** JavaScript values

    The constructors and getters take and return untyped values; truthiness,
    [||], [!], [===] against a literal, [typeof], [+] on strings and property
    reads are the operations the embedded code applies to them. *)

Module JS.

#[warnings="-register-all"]
Inductive value : Type :=
| VUndefined
| VNull
| VBool (b : bool)
| VNum (n : Z)
| VNaN
| VStr (s : string)
| VArr (elems : list value)
| VObj (fields : list (string * value))
(* objects the code only passes around *)
| VLicence (l : Licence.t)
| VApi (defaultUrl : value)   (* an Api; what its getDefaultUrl() returns *)
| VJQuery (html : string).

(** What a call can end in: a value, or a thrown exception. *)
Inductive exn : Type :=
| Error (message : string)
| TypeError.

Inductive res (A : Type) : Type :=
| Ret (a : A)
| Throw (e : exn).
Arguments Ret {A} a.
Arguments Throw {A} e.

(** ToBoolean *)
Definition truthy (v : value) : bool :=
  match v with
  | VUndefined | VNull | VNaN => false
  | VBool b => b
  | VNum n => negb (n =? 0)
  | VStr s => negb (String.eqb s "")
  | VArr _ | VObj _ | VLicence _ | VApi _ | VJQuery _ => true
  end.

(** [!v] *)
Definition not_ (v : value) : value := VBool (negb (truthy v)).

(** [a || b] *)
Definition or_ (a b : value) : value := if truthy a then a else b.

(** [a === b] where one side is a primitive; object identity is not
    modelled, and no comparison of the embedded code has objects on both
    sides. *)
Definition strict_eq (a b : value) : bool :=
  match a, b with
  | VUndefined, VUndefined => true
  | VNull, VNull => true
  | VBool x, VBool y => Bool.eqb x y
  | VNum x, VNum y => x =? y
  | VStr x, VStr y => String.eqb x y
  | _, _ => false
  end.

(** [a !== b] *)
Definition strict_ne (a b : value) : bool := negb (strict_eq a b).

Definition typeof (v : value) : string :=
  match v with
  | VUndefined => "undefined"
  | VNull | VArr _ | VObj _ | VLicence _ | VApi _ | VJQuery _ => "object"
  | VBool _ => "boolean"
  | VNum _ | VNaN => "number"
  | VStr _ => "string"
  end.

Definition string_of_Z (n : Z) : string := NilZero.string_of_int (Z.to_int n).

(** ToString; an array joins its elements with a comma, [undefined] and
    [null] elements giving the empty string. *)
Fixpoint toStr (v : value) : string :=
  match v with
  | VUndefined => "undefined"
  | VNull => "null"
  | VBool true => "true"
  | VBool false => "false"
  | VNum n => string_of_Z n
  | VNaN => "NaN"
  | VStr s => s
  | VArr l =>
      (fix join (l : list value) : string :=
         match l with
         | [] => ""
         | x :: l' =>
             (match x with VUndefined | VNull => "" | _ => toStr x end)
             ++ match l' with [] => "" | _ :: _ => "," ++ join l' end
         end) l
  | VObj _ | VLicence _ | VApi _ | VJQuery _ => "[object Object]"
  end.

(** [Array.prototype.join( separator )] *)
Fixpoint join_elems (sep : string) (l : list value) : string :=
  match l with
  | [] => ""
  | x :: l' =>
      (match x with VUndefined | VNull => "" | _ => toStr x end)
      ++ match l' with [] => "" | _ :: _ => sep ++ join_elems sep l' end
  end.

(** [v.join( separator )]: only an array has the method. *)
Definition join (v : value) (sep : string) : res value :=
  match v with
  | VArr l => Ret (VStr (join_elems sep l))
  | _ => Throw TypeError
  end.

Fixpoint assoc (k : string) (fields : list (string * value)) : value :=
  match fields with
  | [] => VUndefined
  | (k', v) :: fields' => if String.eqb k k' then v else assoc k fields'
  end.

(** [v.key]: a property read throws on [undefined] and [null]; otherwise it
    is an own property of an object literal, the [length] of an array or
    string, and [undefined] for what is not modelled. *)
Definition get (v : value) (key : string) : res value :=
  match v with
  | VUndefined | VNull => Throw TypeError
  | VObj fields => Ret (assoc key fields)
  | VArr l =>
      Ret (if String.eqb key "length" then VNum (Z.of_nat (length l)) else VUndefined)
  | VStr s =>
      Ret (if String.eqb key "length" then VNum (Z.of_nat (String.length s))
           else VUndefined)
  | _ => Ret VUndefined
  end.

Definition bind {A B : Type} (m : res A) (f : A -> res B) : res B :=
  match m with
  | Ret a => f a
  | Throw e => Throw e
  end.

End JS.

#[global] Instance res_ret : MRet JS.res := @JS.Ret.
#[global] Instance res_bind : MBind JS.res := fun A B f m => JS.bind m f.

(** ** The Asset of the questionnaire application *)

Module Asset.

Import JS.

Record t : Type := mk {
  _prefixedFilename : value;
  _title : value;
  _mediaType : value;
  _licence : value;
  _api : value;
  _authors : value;
  _attribution : value;            (* _$attribution *)
  _imageInfo : option (gmap Z value);  (* null, or the object used as a map *)
  _wikiUrl : value
}.

(** The prototype's fields: what [this] reads before the constructor has
    assigned anything. *)
Definition prototype : t :=
  mk VNull VNull VNull VNull VNull VNull VNull None VNull.

(** [api.getDefaultUrl()] *)
Definition getDefaultUrl (api : value) : res value :=
  match api with
  | VApi defaultUrl => Ret defaultUrl
  | _ => Throw TypeError
  end.

Definition no_proper_parameters : exn :=
  Error "No proper initialization parameters specified".

(** The statements of the constructor run on [this]; a throw leaves [this]
    as it is then. *)
Definition ctor (X : Type) : Type := t → t * res X.

#[local] Instance ctor_ret : MRet ctor := fun X x this => (this, Ret x).
#[local] Instance ctor_bind : MBind ctor := fun X Y f m this =>
  match m this with
  | (this', Ret x) => f x this'
  | (this', Throw e) => (this', Throw e)
  end.

Definition throw {X : Type} (e : exn) : ctor X := fun this => (this, Throw e).

Definition eval {X : Type} (r : res X) : ctor X := fun this => (this, r).

(** [this.field = v] *)
Definition assign (f : t → t) : ctor unit := fun this => (f this, Ret tt).

Definition set_prefixedFilename (v : value) (a : t) : t :=
  mk v (_title a) (_mediaType a) (_licence a) (_api a) (_authors a)
    (_attribution a) (_imageInfo a) (_wikiUrl a).

Definition set_title (v : value) (a : t) : t :=
  mk (_prefixedFilename a) v (_mediaType a) (_licence a) (_api a) (_authors a)
    (_attribution a) (_imageInfo a) (_wikiUrl a).

Definition set_mediaType (v : value) (a : t) : t :=
  mk (_prefixedFilename a) (_title a) v (_licence a) (_api a) (_authors a)
    (_attribution a) (_imageInfo a) (_wikiUrl a).

Definition set_licence (v : value) (a : t) : t :=
  mk (_prefixedFilename a) (_title a) (_mediaType a) v (_api a) (_authors a)
    (_attribution a) (_imageInfo a) (_wikiUrl a).

Definition set_api (v : value) (a : t) : t :=
  mk (_prefixedFilename a) (_title a) (_mediaType a) (_licence a) v (_authors a)
    (_attribution a) (_imageInfo a) (_wikiUrl a).

Definition set_authors (v : value) (a : t) : t :=
  mk (_prefixedFilename a) (_title a) (_mediaType a) (_licence a) (_api a) v
    (_attribution a) (_imageInfo a) (_wikiUrl a).

Definition set_attribution (v : value) (a : t) : t :=
  mk (_prefixedFilename a) (_title a) (_mediaType a) (_licence a) (_api a)
    (_authors a) v (_imageInfo a) (_wikiUrl a).

Definition set_imageInfo (m : option (gmap Z value)) (a : t) : t :=
  mk (_prefixedFilename a) (_title a) (_mediaType a) (_licence a) (_api a)
    (_authors a) (_attribution a) m (_wikiUrl a).

Definition set_wikiUrl (v : value) (a : t) : t :=
  mk (_prefixedFilename a) (_title a) (_mediaType a) (_licence a) (_api a)
    (_authors a) (_attribution a) (_imageInfo a) v.

(** The constructor, run on [this = prototype]; it returns [this] as it is
    when the constructor returns or throws. *)
Definition new (prefixedFilename title mediaType licence api
                optionalAttributes wikiUrl : value) : t * res unit :=
  (if negb (truthy prefixedFilename) || negb (truthy title)
      || negb (truthy mediaType)
      || (negb (truthy licence) && strict_ne licence VNull)
      || negb (truthy api)
   then throw no_proper_parameters
   else
     assign (set_prefixedFilename prefixedFilename);;
     assign (set_title title);;
     assign (set_mediaType mediaType);;
     assign (set_licence licence);;
     assign (set_api api);;
     assign (set_wikiUrl (or_ wikiUrl VNull));;
     let '(wikiUrl, optionalAttributes) :=
       if String.eqb (typeof optionalAttributes) "string"
       then (optionalAttributes, VNull)
       else (wikiUrl, optionalAttributes) in
     let optionalAttributes := or_ optionalAttributes (VObj []) in
     authors ← eval (get optionalAttributes "authors");
     assign (set_authors (or_ authors (VArr [])));;
     attribution ← eval (get optionalAttributes "attribution");
     assign (set_attribution (or_ attribution VNull));;
     url ← (if truthy wikiUrl then mret wikiUrl else eval (getDefaultUrl api));
     assign (set_wikiUrl url);;
     assign (set_imageInfo (Some ∅))) prototype.

Definition getWikiUrl (a : t) : value := _wikiUrl a.

(** ['http:' + this._wikiUrl + 'wiki/' + this._prefixedFilename] *)
Definition getUrl (a : t) : value :=
  VStr ((("http:" ++ toStr (_wikiUrl a)) ++ "wiki/") ++ toStr (_prefixedFilename a)).

Definition getTitle (a : t) : value := _title a.

Definition getMediaType (a : t) : value := _mediaType a.

Definition getLicence (a : t) : value := _licence a.

Definition getAuthors (a : t) (options : value) : res value :=
  let options := or_ options (VObj []) in
  format ← get options "format";
  if strict_ne (not_ format) (VStr "string")
  then Ret (_authors a)
  else join (_authors a) "; ".

Definition setAuthors (a : t) (authors : value) : t := set_authors authors a.

End Asset.

(** ** The Asset of the redesigned application (src/app/Asset.js) *)

Module AppAsset.

Import JS.

Record t : Type := mk {
  _title : value;
  _descriptions : value;
  _authors : value;
  _source : value;
  _attribution : value
}.

Definition new (title attributes : value) : res t :=
  let attributes := or_ attributes (VObj []) in
  descriptions ← get attributes "descriptions";
  authors ← get attributes "authors";
  source ← get attributes "source";
  attribution ← get attributes "attribution";
  Ret (mk title (or_ descriptions VNull) (or_ authors VNull)
         (or_ source VNull) (or_ attribution VNull)).

Definition getTitle (a : t) : value := _title a.

Definition getDescriptions (a : t) : value := _descriptions a.


Definition getAuthors (a : t) (options : value) : res value :=
  let options := or_ options (VObj []) in
  format ← get options "format";
  if strict_ne (not_ format) (VStr "string")
  then Ret (_authors a)
  else join (_authors a) "; ".

Definition getSource (a : t) : value := _source a.

Definition getAttribution (a : t) : value := _attribution a.

End AppAsset.

(** ** Asset.getImageInfo and the requests to the Api

    [getImageInfo] returns a promise at once; the Api answers a request
    later, and only then do the [done] or [fail] callbacks run.  A [world] is
    the asset together with every call made so far: the request the call
    issued, if any, and the state of the promise it returned. *)

Module ImageInfo.

Import JS.

Inductive promise : Type :=
| Pending
| Resolved (imageInfo : value)
| Rejected (error : value).

(** The arguments of [api.getImageInfo]. *)
Record request : Type := mkRequest {
  rq_prefixedFilename : value;
  rq_imageSize : Z;
  rq_wikiUrl : value
}.

Record call : Type := mkCall {
  c_imageSize : Z;
  c_request : option request;
  c_promise : promise
}.

Record world : Type := mkWorld {
  this : Asset.t;
  calls : list call
}.

(** [this._imageInfo[imageSize]] *)
Definition cached (a : Asset.t) (imageSize : Z) : res value :=
  match Asset._imageInfo a with
  | None => Throw TypeError
  | Some m => Ret (default VUndefined (m !! imageSize))
  end.

(** [this._imageInfo[imageSize] = imageInfo]; a request is only issued by an
    asset that has its map. *)
Definition store (a : Asset.t) (imageSize : Z) (imageInfo : value) : Asset.t :=
  Asset.set_imageInfo
    (match Asset._imageInfo a with
     | Some m => Some (<[imageSize := imageInfo]> m)
     | None => None
     end) a.

(** The body of [getImageInfo] up to [return deferred.promise()]. *)
Definition getImageInfo (w : world) (imageSize : Z) : res world :=
  hit ← cached (this w) imageSize;
  if truthy hit
  then Ret (mkWorld (this w) (calls w ++ [mkCall imageSize None (Resolved hit)]))
  else
    match Asset._api (this w) with
    | VApi _ =>
        Ret (mkWorld (this w)
               (calls w ++
                [mkCall imageSize
                   (Some (mkRequest (Asset._prefixedFilename (this w)) imageSize
                            (Asset._wikiUrl (this w))))
                   Pending]))
    | _ => Throw TypeError
    end.

(** The [done] callback of the request issued by call number [k]. *)
Definition done (w : world) (k : nat) (imageInfo : value) : world :=
  match calls w !! k with
  | Some (mkCall imageSize (Some rq) Pending) =>
      mkWorld (store (this w) imageSize imageInfo)
        (<[k := mkCall imageSize (Some rq) (Resolved imageInfo)]> (calls w))
  | _ => w
  end.

(** The [fail] callback of the request issued by call number [k]. *)
Definition fail (w : world) (k : nat) (error : value) : world :=
  match calls w !! k with
  | Some (mkCall imageSize (Some rq) Pending) =>
      mkWorld (this w)
        (<[k := mkCall imageSize (Some rq) (Rejected error)]> (calls w))
  | _ => w
  end.

(** What can happen to an asset: a caller asks for an image size, the Api
    answers one of the open requests. *)
Inductive event : Type :=
| Call (imageSize : Z)
| ApiDone (k : nat) (imageInfo : value)
| ApiFail (k : nat) (error : value).

Definition step (w : world) (e : event) : world :=
  match e with
  | Call imageSize =>
      match getImageInfo w imageSize with
      | Ret w' => w'
      | Throw _ => w
      end
  | ApiDone k imageInfo => done w k imageInfo
  | ApiFail k error => fail w k error
  end.

Definition run (w : world) (es : list event) : world := fold_left step es w.

(** The Api resolves with an object ("Image information received from the
    API"), which is truthy. *)
Definition resolves_with_object (e : event) : bool :=
  match e with
  | ApiDone _ imageInfo => truthy imageInfo
  | _ => true
  end.

(** The requests issued to the Api so far. *)
Definition requests (w : world) : list request :=
  omap c_request (calls w).

(** The cache holds a truthy entry for the size. *)
Definition holds (a : Asset.t) (imageSize : Z) (v : value) : Prop :=
  ∃ m, Asset._imageInfo a = Some m ∧ m !! imageSize = Some v ∧ truthy v = true.

End ImageInfo.

(** ** The questionnaire state *)

Module QuestionnaireState.

Import JS.

(** The answers logged so far, by page and answer. *)
Record t : Type := mk {
  answers : gmap (string * Z) value
}.

(** Modelled from the spec: [QuestionnaireState.setValue] is not part of the
    sources.  It "records value; if value omitted, records boolean true";
    [QuestionnairePage._log] passes its own optional [value] on, so an
    omitted value arrives as [undefined]. *)
Definition setValue (st : t) (page : string) (answer : Z) (value : JS.value) : t :=
  mk (<[(page, answer) := match value with VUndefined => VBool true | _ => value end]>
        (answers st)).

(** Modelled from the spec: [QuestionnaireState.deleteValue] is not part of
    the sources.  It "removes the entry; querying it afterward yields
    absent". *)
Definition deleteValue (st : t) (page : string) (answer : Z) : t :=
  mk (delete (page, answer) (answers st)).

(** Modelled from the spec: [get(step, answer) -> value|absent]. *)
Definition getValue (st : t) (page : string) (answer : Z) : option value :=
  answers st !! (page, answer).

(** What [getResult()] returns, as far as the page logic reads it. *)
Record result (A : Type) : Type := mkResult {
  asset : A;
  attributionAlthoughExceptionalUse : value;
  useCase : value
}.
Arguments mkResult {A} _ _ _.
Arguments asset {A} _.
Arguments attributionAlthoughExceptionalUse {A} _.
Arguments useCase {A} _.

End QuestionnaireState.

(** ** The questionnaire page *)

(** The page calls its asset through four getters. *)
Class AssetLike (A : Type) : Type := {
  getAuthors : A -> JS.value -> JS.res JS.value;
  getTitle : A -> JS.value;
  getUrl : A -> JS.value;
  getLicence : A -> JS.value
}.

#[global] Instance Asset_AssetLike : AssetLike Asset.t := {
  getAuthors := Asset.getAuthors;
  getTitle := Asset.getTitle;
  getUrl := Asset.getUrl;
  getLicence := Asset.getLicence
}.

Module QuestionnairePage.

Import JS.

(** *** The DOM, as far as the logic touches it *)

(** The selectors of the page code: [tag.class] or [.class]; the items
    of the answer list, ['ul.answers li']; and the check box node that
    [_applyGenerics] creates and prepends to each item. *)
Inductive selector : Type :=
| mkSelector (s_tag : option string) (s_class : string)
| AnswerItems
| CheckboxNode.

Record element : Type := mkElement {
  e_tag : string;
  e_classes : list string;
  e_in_answers : bool      (* below a [ul.answers] *)
}.

Definition has_class (el : element) (class : string) : bool :=
  existsb (String.eqb class) (e_classes el).

Definition selects (s : selector) (el : element) : bool :=
  match s with
  | mkSelector s_tag s_class =>
      match s_tag with
      | None => true
      | Some tag => String.eqb tag (e_tag el)
      end && has_class el s_class
  | AnswerItems => String.eqb (e_tag el) "li" && e_in_answers el
  | CheckboxNode =>
      String.eqb (e_tag el) "span" && has_class el "checkbox" && e_in_answers el
  end.

(** ['.a' + answer] *)
Definition dot_a (answer : Z) : selector :=
  mkSelector None ("a" ++ string_of_Z answer).

(** An answer of the list, [<li class="aN">]. *)
Definition answer_item (answer : Z) : element :=
  mkElement "li" ["a" ++ string_of_Z answer] true.

(** What a handler reads from the event and from the element it fires on:
    [event.keyCode] and [$( this ).data( 'licenceId' )]. *)
Record dom_event : Type := mkDomEvent {
  keyCode : Z;
  licenceId : value
}.

(** [$.trim]: white space is removed at both ends. *)
Definition is_space (c : ascii) : bool :=
  let n := nat_of_ascii c in
  (((9 <=? n) && (n <=? 13)) || (n =? 32) || (n =? 160))%nat.

Fixpoint ltrim (s : list ascii) : list ascii :=
  match s with
  | c :: s' => if is_space c then ltrim s' else s
  | [] => []
  end.

Definition trim (s : string) : string :=
  string_of_list_ascii (rev (ltrim (rev (ltrim (list_ascii_of_string s))))).

(** *** Events the page triggers, and the state handlers run in *)

Inductive trigger : Type :=
| Update (questionnaireState : QuestionnaireState.t)  (* 'update' and its argument, as it is then *)
| GoTo (toPage : string).                             (* 'goto' *)

Record world : Type := mkWorld {
  questionnaireState : QuestionnaireState.t;
  input : string;             (* the value of the page's [input.a1] *)
  triggered : list trigger    (* oldest first *)
}.

(** A computation on the world that may throw; the world is kept as it is
    at the throw. *)
Definition M (A : Type) : Type := world -> world * res A.

#[global] Instance M_ret : MRet M := fun A a w => (w, Ret a).
#[global] Instance M_bind : MBind M := fun A B f m w =>
  match m w with
  | (w', Ret a) => f a w'
  | (w', Throw e) => (w', Throw e)
  end.

(** A call that may throw, made from a handler. *)
Definition lift {A : Type} (r : res A) : M A := fun w => (w, r).

Definition trigger_ (t : trigger) : M unit := fun w =>
  (mkWorld (questionnaireState w) (input w) (triggered w ++ [t]), Ret tt).

Definition modify_state (f : QuestionnaireState.t -> QuestionnaireState.t) : M unit :=
  fun w => (mkWorld (f (questionnaireState w)) (input w) (triggered w), Ret tt).

Definition get_state : M QuestionnaireState.t := fun w => (w, Ret (questionnaireState w)).

(** [$input.val()] and [$input.val( v )] *)
Definition val : M string := fun w => (w, Ret (input w)).

Definition set_val (v : string) : M unit := fun w =>
  (mkWorld (questionnaireState w) v (triggered w), Ret tt).

Record binding : Type := mkBinding {
  on_selector : selector;
  on_event : string;
  handler : dom_event -> M unit
}.

(** Changes to the nodes other than handlers. *)
Inductive dom_op : Type :=
| Prepend (s : selector) (node : selector)
| Off (s : selector) (event : string)
| AddClass (s : selector) (class : string).

(** [$page] after the functionality has been applied. *)
Record page : Type := mkPage {
  bindings : list binding;
  dom_ops : list dom_op
}.

Definition on (pg : page) (s : selector) (event : string)
    (h : dom_event -> M unit) : page :=
  mkPage (bindings pg ++ [mkBinding s event h]) (dom_ops pg).

(** An event on an element runs the handlers bound to a selector of the
    element, in the order they were bound; a throw ends the dispatch. *)
Fixpoint fire (bs : list binding) (el : element) (event : string)
    (e : dom_event) : M unit :=
  match bs with
  | [] => mret tt
  | b :: bs' =>
      if selects (on_selector b) el && String.eqb (on_event b) event
      then handler b e ≫= fun _ => fire bs' el event e
      else fire bs' el event e
  end.

Section Logic.

Context {A : Type} `{AssetLike A}.

(** [QuestionnaireState.getResult] is not part of the sources; the logic
    holds for whatever it computes from the state. *)
Variable getResult : QuestionnaireState.t -> QuestionnaireState.result A.

Definition _goTo (toPage : string) : M unit := trigger_ (GoTo toPage).

Definition _update : M unit :=
  st ← get_state; trigger_ (Update st).

Definition _log (page : string) (answer : Z) (value : JS.value) : M unit :=
  modify_state (fun st => QuestionnaireState.setValue st page answer value);;
  _update.

Definition _removeFromLog (page : string) (answer : Z) : M unit :=
  modify_state (fun st => QuestionnaireState.deleteValue st page answer).

Definition _applyLogAndGoTo (pg : page) (currentPage : string) (answer : Z)
    (toPage : string) : page :=
  on pg (dot_a answer) "click" (fun _ =>
    _log currentPage answer VUndefined;;
    _goTo toPage).

Definition _applyDisabled (pg : page) (answer : Z) : page :=
  mkPage (bindings pg)
    (dom_ops pg ++ [Off (dot_a answer) "mouseover"; AddClass (dot_a answer) "disabled"]).

Definition evaluateInput (p : string) : M unit :=
  v ← val;
  let value := trim v in
  if negb (String.eqb value "")
  then _log p 1 (VStr value)
  else (_removeFromLog p 1;; _log p 2 VUndefined).

(** [licence.isInGroup( group )] on what [getLicence()] returned: only a
    licence has the method. *)
Definition call_isInGroup (licence : value) (group : string) : res bool :=
  match licence with
  | VLicence l => Ret (Licence.isInGroup l group)
  | _ => Throw TypeError
  end.

(** The handlers of a page with a text field, which the pages "form-...",
    "9" and "13" bind alike: [keyup], [keypress] (only the enter key acts;
    [preventDefault] has no part in the state) and the click on [a.a1]. *)
Definition text_field (pg : page) (p goTo : string) : page :=
  let pg := on pg (mkSelector (Some "input") "a1") "keyup" (fun _ =>
    evaluateInput p) in
  let pg := on pg (mkSelector (Some "input") "a1") "keypress" (fun event =>
    if keyCode event =? 13
    then evaluateInput p;; _goTo goTo
    else mret tt) in
  on pg (mkSelector (Some "a") "a1") "click" (fun _ =>
    evaluateInput p;; _goTo goTo).

(** The click on the answer that empties the text field. *)
Definition empty_answer (pg : page) (s : selector) (p goTo : string) : page :=
  on pg s "click" (fun _ =>
    set_val "";; evaluateInput p;; _goTo goTo).

(** The check box animations only change the style of the node. *)
Definition _startCheckboxAnimation : M unit := mret tt.

Definition _stopCheckboxAnimation : M unit := mret tt.

Definition _applyGenerics (pg : page) : page :=
  let pg := mkPage (bindings pg) (dom_ops pg ++ [Prepend AnswerItems CheckboxNode]) in
  let pg := on pg CheckboxNode "mouseover" (fun _ => _startCheckboxAnimation) in
  let pg := on pg CheckboxNode "mouseout" (fun _ => _stopCheckboxAnimation) in
  let pg := on pg AnswerItems "mouseover" (fun _ => _startCheckboxAnimation) in
  on pg AnswerItems "mouseout" (fun _ => _stopCheckboxAnimation).

Definition _applyLogic (pg : page) (p : string) (asset : A)
    (state : QuestionnaireState.t) : res page :=
  if String.eqb p "2" then
    authors ← getAuthors asset VUndefined;
    length ← get authors "length";
    let goTo :=
      if negb (truthy length) then "form-author"
      else if negb (truthy (getTitle asset)) then "form-title"
      else if negb (truthy (getUrl asset)) then "form-url"
      else "3" in
    let pg := on pg (dot_a 1) "click" (fun event =>
      _log p 1 (licenceId event);;
      _goTo goTo) in
    let pg := _applyLogAndGoTo pg p 9 "result-note-cc0" in
    Ret (_applyLogAndGoTo pg p 10 "15")
  else if String.eqb p "form-author" || String.eqb p "form-title"
          || String.eqb p "form-url" then
    let title := getTitle asset in
    let goTo :=
      if String.eqb p "form-author" && negb (truthy title) then "form-title"
      else if negb (String.eqb p "form-url")
              && (negb (truthy (getUrl asset)) || strict_eq (getUrl asset) (VStr ""))
           then "form-url"
      else "3" in
    let pg := text_field pg p goTo in
    Ret (empty_answer pg (mkSelector (Some "li") "a2") p goTo)
  else if String.eqb p "3" then
    let pg := _applyLogAndGoTo pg p 1 "7" in
    let pg := _applyLogAndGoTo pg p 2 "7" in
    let pg := on pg (dot_a 3) "click" (fun _ =>
      _log p 3 VUndefined;;
      st ← get_state;
      inGroup ← lift (call_isInGroup (getLicence (QuestionnaireState.asset (getResult st))) "cc2de");
      if inGroup : bool then _goTo "7" else _goTo "result-note-privateUse") in
    let pg :=
      if truthy (QuestionnaireState.attributionAlthoughExceptionalUse (getResult state))
      then _applyDisabled pg 4
      else _applyLogAndGoTo pg p 4 "5" in
    Ret (_applyLogAndGoTo pg p 5 "6")
  else if String.eqb p "5" then
    let pg := _applyLogAndGoTo pg p 1 "3" in
    Ret (_applyLogAndGoTo pg p 2 "5a")
  else if String.eqb p "7" then
    let goTo :=
      if strict_eq (QuestionnaireState.useCase (getResult state)) (VStr "print")
      then "8" else "12a" in
    let pg := _applyLogAndGoTo pg p 1 goTo in
    Ret (_applyLogAndGoTo pg p 2 goTo)
  else if String.eqb p "8" then
    let pg := _applyLogAndGoTo pg p 1 "12a" in
    Ret (_applyLogAndGoTo pg p 2 "12a")
  else if String.eqb p "9" then
    let pg := text_field pg p "3" in
    Ret (empty_answer pg (dot_a 2) p "3")
  else if String.eqb p "12a" then
    let pg := _applyLogAndGoTo pg p 1 "result-success" in
    Ret (_applyLogAndGoTo pg p 2 "12b")
  else if String.eqb p "12b" then
    let pg := _applyLogAndGoTo pg p 1 "13" in
    Ret (_applyLogAndGoTo pg p 2 "12c")
  else if String.eqb p "13" then
    Ret (text_field pg p "result-success")
  else Ret pg.

Definition _applyFunctionality (pg : page) (p : string) (asset : A)
    (state : QuestionnaireState.t) : res page :=
  let pg := _applyGenerics pg in
  _applyLogic pg p asset state.

(** The page as the constructor leaves it, on a node without handlers.  The
    checks of the constructor are on the kinds of its arguments, which the
    types fix here; [p] is the ['questionnaire-page'] data of the node. *)
Definition new (p : string) (asset : A) (state : QuestionnaireState.t) : res page :=
  _applyFunctionality (mkPage [] []) p asset state.

End Logic.

End QuestionnairePage.

(** ** Asset.getFilename: replacing the first match of a pattern

    [String.prototype.replace] with a pattern without the [g] flag replaces
    the first match: the leftmost start at which the pattern matches, and
    there the match the backtracking finds first (the left alternative
    first, as many repetitions as possible first). *)

Module Replace.

Import RegExp JS.

Definition orelse {X : Type} (a b : option X) : option X :=
  match a with
  | Some x => Some x
  | None => b
  end.

(** [run r prev s k]: as [matches], but the continuation returns a result,
    and the first result in the order of the backtracking is kept. *)
Fixpoint run {X : Type} (r : re) (prev : option ascii) (s : list ascii)
    (k : option ascii → list ascii → option X) {struct r} : option X :=
  match r with
  | Eps => k prev s
  | Chr c =>
      match s with
      | x :: s' => if ci_eqb c x then k (Some x) s' else None
      | [] => None
      end
  | Dot =>
      match s with
      | x :: s' => if is_line_terminator x then None else k (Some x) s'
      | [] => None
      end
  | NoneOf cs =>
      match s with
      | x :: s' => if existsb (fun c => ci_eqb c x) cs then None else k (Some x) s'
      | [] => None
      end
  | Seq r1 r2 => run r1 prev s (fun p' s' => run r2 p' s' k)
  | Alt r1 r2 => orelse (run r1 prev s k) (run r2 prev s k)
  | Opt r1 => orelse (run r1 prev s k) (k prev s)
  | Star r1 =>
      (fix star (n : nat) (prev : option ascii) (s : list ascii) {struct n} : option X :=
         orelse
           match n with
           | O => None
           | S n' =>
               run r1 prev s
                 (fun p' s' => if (length s' <? length s)%nat then star n' p' s' else None)
           end
           (k prev s)) (length s) prev s
  | Bol => match prev with None => k prev s | Some _ => None end
  | Eol => match s with [] => k prev s | _ :: _ => None end
  | WordB =>
      if xorb (is_word prev) (is_word (hd_error s)) then k prev s else None
  end.

(** The first match in [s], which follows [before] (in reverse): what is
    before the match and what is after it. *)
Fixpoint first_match (r : re) (before : list ascii) (s : list ascii)
    : option (list ascii * list ascii) :=
  orelse
    (run r (hd_error before) s (fun _ rest => Some (rev before, rest)))
    match s with
    | [] => None
    | x :: s' => first_match r (x :: before) s'
    end.

(** [s.replace( r, replacement )], the replacement being plain text *)
Definition replace (s : string) (r : re) (replacement : string) : string :=
  match first_match r [] (list_ascii_of_string s) with
  | Some (before, rest) =>
      string_of_list_ascii before ++ replacement ++ string_of_list_ascii rest
  | None => s
  end.

(** [/^[^:]+:/]; the colon has no case, so that the missing [i] flag makes
    no difference. *)
Definition prefix_pattern : re :=
  Seq Bol (Seq (Plus (NoneOf [":"%char])) (Chr ":")).

(** [this._prefixedFilename.replace( /^[^:]+:/ , '' )]: of the values
    modelled only a string has the method. *)
Definition getFilename (a : Asset.t) : res value :=
  match Asset._prefixedFilename a with
  | VStr s => Ret (VStr (replace s prefix_pattern ""))
  | _ => Throw TypeError
  end.

End Replace.

(** ** The check box animation

    [_startCheckboxAnimation] and [_stopCheckboxAnimation] act on one check
    box node: its background position, the deferred object stored in its
    data under 'app-animation', and the time-outs that are set.  Each call of
    [_startCheckboxAnimation] has its own deferred object, its own queue of
    stages and its own function [next]; a time-out that fires runs the
    [next] of the call that set it.  Time itself is left out: time-outs fire
    in any order. *)

Module Animation.

Import JS.

(** One call of [_startCheckboxAnimation]: the number of its deferred
    object, the stages left in its queue, and whether a time-out is set. *)
Record chain : Type := mkChain {
  ch_deferred : nat;
  ch_queue : list Z;
  ch_timer : bool
}.

Record node : Type := mkNode {
  backgroundPosition : string;
  data : option nat;        (* the deferred object under 'app-animation' *)
  resolved : list bool;     (* the state of each deferred object created *)
  chains : list chain
}.

(** [offsetFactor * 20 + 'px 0'] *)
Definition stage (offsetFactor : Z) : string :=
  string_of_Z (offsetFactor * 20) ++ "px 0".

(** [next()] of call number [i]. *)
Definition next (i : nat) (n : node) : node :=
  match chains n !! i with
  | None => n
  | Some c =>
      let is_resolved := default false (resolved n !! ch_deferred c) in
      let position := if is_resolved then "0 0" else backgroundPosition n in
      let queue := if is_resolved then [] else ch_queue c in
      match queue with
      | [] =>
          mkNode position (data n) (resolved n)
            (<[i := mkChain (ch_deferred c) [] false]> (chains n))
      | offsetFactor :: queue' =>
          mkNode (stage offsetFactor) (data n) (resolved n)
            (<[i := mkChain (ch_deferred c) queue' true]> (chains n))
      end
  end.

Definition _startCheckboxAnimation (n : node) : node :=
  let deferred := length (resolved n) in
  let i := length (chains n) in
  next i
    (mkNode (backgroundPosition n) (Some deferred) (resolved n ++ [false])
       (chains n ++ [mkChain deferred [-1; -2; -3; -4] false])).

Definition _stopCheckboxAnimation (n : node) : node :=
  match data n with
  | None => n
  | Some deferred =>
      mkNode "0 0" None (<[deferred := true]> (resolved n)) (chains n)
  end.

(** The time-out of call number [i] fires, if one is set. *)
Definition timeout (i : nat) (n : node) : node :=
  match chains n !! i with
  | Some c =>
      if ch_timer c
      then next i (mkNode (backgroundPosition n) (data n) (resolved n)
                     (<[i := mkChain (ch_deferred c) (ch_queue c) false]> (chains n)))
      else n
  | None => n
  end.

Inductive event : Type :=
| MouseOver
| MouseOut
| Timeout (i : nat).

Definition step (n : node) (e : event) : node :=
  match e with
  | MouseOver => _startCheckboxAnimation n
  | MouseOut => _stopCheckboxAnimation n
  | Timeout i => timeout i n
  end.

Definition run (n : node) (es : list event) : node := fold_left step es n.

(** The stages still to come: for each call with a time-out set, the
    time-out and the stages left in its queue. *)
Definition pending (n : node) : nat :=
  sum_list (map (fun c => if ch_timer c then S (length (ch_queue c)) else 0%nat) (chains n)).

(** The time-outs among the events that find their time-out set. *)
Fixpoint fired (n : node) (es : list event) : nat :=
  match es with
  | [] => 0
  | e :: es' =>
      (match e with
       | Timeout i =>
           match chains n !! i with
           | Some c => if ch_timer c then 1 else 0
           | None => 0
           end
       | _ => 0
       end + fired (step n e) es')%nat
  end.

Definition starts (es : list event) : nat :=
  length (List.filter (fun e => match e with MouseOver => true | _ => false end) es).

(** A node on which no animation runs. *)
Definition idle (n : node) : Prop :=
  data n = None ∧ Forall (fun c => ch_timer c = false) (chains n).

End Animation.

(** ** A sample asset and page, for the examples *)

Module Sample.

Import JS.

Definition api : value := VApi (VStr "//commons.wikimedia.org/").

(** An asset without authors, as the constructor returns it. *)
Definition asset : Asset.t :=
  (Asset.new (VStr "File:Example.jpg") (VStr "Example") (VStr "bitmap")
     (VLicence LICENCES.cc_by_sa_2_0_de) api VUndefined VUndefined).1.

(** The same with an author. *)
Definition asset_with_author : Asset.t :=
  (Asset.new (VStr "File:Example.jpg") (VStr "Example") (VStr "bitmap")
     (VLicence LICENCES.cc_by_3_0) api
     (VObj [("authors", VArr [VStr "Jane Doe"])]) VUndefined).1.

Definition state : QuestionnaireState.t := QuestionnaireState.mk ∅.

(** A result that hands back the asset it was given. *)
Definition getResult (a : Asset.t) (flag : value) (st : QuestionnaireState.t)
    : QuestionnaireState.result Asset.t :=
  QuestionnaireState.mkResult a flag (VStr "online").

Definition world : QuestionnairePage.world :=
  QuestionnairePage.mkWorld state "" [].

Definition event : QuestionnairePage.dom_event :=
  QuestionnairePage.mkDomEvent 0 VUndefined.

(** The text field of a page. *)
Definition input_a1 : QuestionnairePage.element :=
  QuestionnairePage.mkElement "input" ["a1"] false.

(** The user leaves [v] in the text field: the [keyup] handlers of the page
    run on it. *)
Definition keyup (pg : QuestionnairePage.page) (v : string)
    (w : QuestionnairePage.world) : QuestionnairePage.world :=
  (QuestionnairePage.fire (QuestionnairePage.bindings pg) input_a1 "keyup" event
     (QuestionnairePage.mkWorld (QuestionnairePage.questionnaireState w) v
        (QuestionnairePage.triggered w))).1.

End Sample.

(** ** Notions used in the statements *)

Section ImageInfoNotions.

Import JS ImageInfo.

(** What holds of an asset and its calls, started on an asset [a] with an
    empty cache. *)
Definition from_fresh (a : Asset.t) (w : world) : Prop :=
  (∃ m, this w = Asset.set_imageInfo (Some m) a
        ∧ ∀ imageSize v, m !! imageSize = Some v →
            ∃ k rq, calls w !! k = Some (mkCall imageSize (Some rq) (Resolved v)))
  ∧ (∀ k c rq, calls w !! k = Some c → c_request c = Some rq →
       rq = mkRequest (Asset._prefixedFilename a) (c_imageSize c) (Asset._wikiUrl a))
  ∧ (∀ k c, calls w !! k = Some c → c_request c = None →
       ∃ v, c_promise c = Resolved v ∧ truthy v = true).

End ImageInfoNotions.

Section PageNotions.

Import JS QuestionnairePage.

(** The pages that a 'goto' of the page logic names. *)
Definition goto_targets : list string :=
  [ "form-author"; "form-title"; "form-url"; "3"; "result-note-cc0"; "15";
    "7"; "result-note-privateUse"; "5"; "6"; "5a"; "8"; "12a";
    "result-success"; "12b"; "13"; "12c" ].

(** What one run of a handler can come to: nothing at all; or the state
    [st] written, the text field kept or emptied, one 'update' carrying
    [st], and then either nothing more, a throw, or one 'goto'. *)
Definition handler_outcome (w : world) (out : world * res unit) : Prop :=
  out = (w, Ret tt)
  ∨ ∃ st inp, (inp = input w ∨ inp = "")
      ∧ (out = (mkWorld st inp (triggered w ++ [Update st]), Ret tt)
         ∨ out = (mkWorld st inp (triggered w ++ [Update st]), Throw TypeError)
         ∨ ∃ t, t ∈ goto_targets
             ∧ out = (mkWorld st inp (triggered w ++ [Update st; GoTo t]), Ret tt)).

(** The page ids that [_applyLogic] has a case for. *)
Definition logic_pages : list string :=
  [ "2"; "form-author"; "form-title"; "form-url"; "3"; "5"; "7"; "8"; "9";
    "12a"; "12b"; "13" ].

(** The pages with a text field, the text field and the link that confirms
    it. *)
Definition text_pages : list string :=
  ["form-author"; "form-title"; "form-url"; "9"; "13"].

Definition text_input : element := mkElement "input" ["a1"] false.

Definition confirm_link : element := mkElement "a" ["a1"] false.

(** Where a page with a text field goes on to. *)
Definition text_target {A : Type} `{AssetLike A} (p : string) (asset : A) : string :=
  if String.eqb p "13" then "result-success"
  else if String.eqb p "9" then "3"
  else if String.eqb p "form-author" && negb (truthy (getTitle asset))
       then "form-title"
  else if negb (String.eqb p "form-url")
          && (negb (truthy (getUrl asset)) || strict_eq (getUrl asset) (VStr ""))
       then "form-url"
  else "3".

End PageNotions.

Section RegExpNotions.

Import RegExp.

(** Two characters that the [i] flag does not tell apart. *)
Definition ci (a b : ascii) : Prop := ci_eqb a b = true.

Definition ci_opt (p q : option ascii) : Prop :=
  match p, q with
  | None, None => True
  | Some a, Some b => ci a b
  | _, _ => False
  end.

(** Two strings that differ in the case of letters only. *)
Definition ci_equal (s t : string) : Prop :=
  Forall2 ci (list_ascii_of_string s) (list_ascii_of_string t).

(** No colon in the string. *)
Definition no_colon (s : string) : Prop :=
  Forall (fun c => c ≠ ":"%char) (list_ascii_of_string s).

End RegExpNotions.

Section AnimationNotions.

Import Animation.

(** What a call still has to do: its time-out and the stages in its queue. *)
Definition weight (c : chain) : nat :=
  if ch_timer c then S (length (ch_queue c)) else 0%nat.

(** While the mouse is over the node: the call started last is the only
    one with a time-out, and the position is the stage it has reached. *)
Definition hovering (n0 n : node) : Prop :=
  data n = Some (length (resolved n0))
  ∧ resolved n = (resolved n0 ++ [false])%list
  ∧ (∀ i c, i ≠ length (chains n0) → chains n !! i = Some c → ch_timer c = false)
  ∧ ∃ c, chains n !! length (chains n0) = Some c
      ∧ ch_deferred c = length (resolved n0)
      ∧ (backgroundPosition n, ch_queue c, ch_timer c)
        ∈ [ ("-20px 0", [-2; -3; -4], true); ("-40px 0", [-3; -4], true);
            ("-60px 0", [-4], true); ("-80px 0", [], true); ("-80px 0", [], false) ].

(** After the mouse has left: the position is reset and the deferred object
    of the call is resolved. *)
Definition left (n0 n : node) : Prop :=
  backgroundPosition n = "0 0" ∧ data n = None
  ∧ resolved n !! length (resolved n0) = Some true
  ∧ (∀ i c, i ≠ length (chains n0) → chains n !! i = Some c → ch_timer c = false)
  ∧ ∃ c, chains n !! length (chains n0) = Some c
      ∧ ch_deferred c = length (resolved n0).

End AnimationNotions.

(** * Properties *)

(** ** The licence list: the first match wins *)

Section FirstMatch.

Import LICENCES.

Implicit Types (ls : list Licence.t) (s : string).

Lemma find_in_None ls s :
  find_in ls s = None → ∀ m lm, ls !! m = Some lm → Licence.match_ lm s = false.
Proof.
  induction ls as [|l ls IH]; intros Hf m lm Hm; [done|].
  simpl in Hf. destruct (Licence.match_ l s) eqn:El; [done|].
  destruct m as [|m]; simpl in Hm.
  - by inversion Hm; subst.
  - eauto.
Qed.

Lemma find_in_Some ls s l :
  find_in ls s = Some l →
  ∃ k, ls !! k = Some l ∧ Licence.match_ l s = true ∧ none_before ls s k.
Proof.
  induction ls as [|l0 ls IH]; intros Hf; [done|].
  simpl in Hf. destruct (Licence.match_ l0 s) eqn:El.
  - inversion Hf; subst. exists 0%nat. repeat split; [done|].
    intros m lm Hm. lia.
  - destruct (IH Hf) as (k & Hk & Hacc & Hnone).
    exists (S k). repeat split; [done..|].
    intros [|m] lm Hm Hl; simpl in Hl.
    + by inversion Hl; subst.
    + apply (Hnone m); [lia|done].
Qed.

(** An accepting entry at position [i] makes the lookup succeed, at a
    position not after [i]. *)
Lemma find_in_first ls s i li :
  ls !! i = Some li → Licence.match_ li s = true →
  ∃ k lk, (k ≤ i)%nat ∧ ls !! k = Some lk ∧ find_in ls s = Some lk
          ∧ Licence.match_ lk s = true ∧ none_before ls s k.
Proof.
  intros Hi Hacc. destruct (find_in ls s) as [lk|] eqn:Hf.
  - destruct (find_in_Some _ _ _ Hf) as (k & Hk & Hlk & Hnone).
    exists k, lk. repeat split; try done.
    destruct (decide (k ≤ i)%nat) as [|Hgt]; [done|].
    rewrite (Hnone i li) in Hacc; [done|lia|done].
  - by rewrite (find_in_None _ _ Hf i li Hi) in Hacc.
Qed.

Lemma none_before_unique ls s k k' l l' :
  ls !! k = Some l → Licence.match_ l s = true → none_before ls s k →
  ls !! k' = Some l' → Licence.match_ l' s = true → none_before ls s k' →
  k = k'.
Proof.
  intros Hk Hl Hn Hk' Hl' Hn'.
  destruct (lt_eq_lt_dec k k') as [[Hlt|Heq]|Hgt]; [|done|].
  - by rewrite (Hn' k l Hlt Hk) in Hl.
  - by rewrite (Hn k' l' Hgt Hk') in Hl'.
Qed.

(** The broad entry stands at position 10 and nowhere else. *)
Lemma licences_cc_position k : licences !! k = Some cc → k = 10%nat.
Proof.
  intros Hk.
  do 12 (destruct k as [|k]; [first [done | exfalso; vm_compute in Hk; discriminate]|]).
  done.
Qed.

(** The fallback entry is the last one. *)
Lemma licences_unknown_position k : licences !! k = Some unknown → k = 11%nat.
Proof.
  intros Hk.
  do 12 (destruct k as [|k]; [first [done | exfalso; vm_compute in Hk; discriminate]|]).
  done.
Qed.

(** No entry occurs twice: the ids differ. *)
Lemma licences_NoDup : NoDup licences.
Proof.
  apply (NoDup_fmap_1 Licence.id).
  apply (bool_decide_unpack _). by vm_compute.
Qed.

(** The lookup returns an entry of the list that accepts the string, and no
    entry before it does. *)
Lemma find_spec s :
  ∃ k, licences !! k = Some (find s) ∧ Licence.match_ (find s) s = true
       ∧ none_before licences s k.
Proof.
  destruct (find_in_first licences s 11 unknown) as (k & lk & _ & Hk & Hf & Hm & Hn);
    [done..|].
  exists k. unfold find. by rewrite Hf.
Qed.

End FirstMatch.

(** ** The broad pattern accepts what the specific CC BY patterns accept *)

Section Broad.

Import RegExp LICENCES.

Implicit Types (r : re) (prev : option ascii) (s : list ascii)
  (k : option ascii → list ascii → bool).

(** A more permissive continuation keeps a match. *)
Lemma matches_mono r : ∀ prev s k k',
  (∀ p t, k p t = true → k' p t = true) →
  matches r prev s k = true → matches r prev s k' = true.
Proof.
  induction r as [|c| |cs|r1 IH1 r2 IH2|r1 IH1 r2 IH2|r1 IH1|r1 IH1| | |];
    intros prev s k k' Hk; simpl.
  - apply Hk.
  - destruct s as [|x s]; [done|]. destruct (ci_eqb c x); [apply Hk|done].
  - destruct s as [|x s]; [done|]. destruct (is_line_terminator x); [done|apply Hk].
  - destruct s as [|x s]; [done|]. destruct (existsb _ cs); [done|apply Hk].
  - apply IH1. intros p t. by apply IH2.
  - rewrite !orb_true_iff. intros [?|?]; [left; by eapply IH1|right; by eapply IH2].
  - rewrite !orb_true_iff. intros [?|?]; [left; by eapply IH1|right; by apply Hk].
  - generalize (length s) as n. intros n; revert prev s.
    induction n as [|n IHn]; intros prev s; rewrite !orb_true_iff.
    + intros [?|?]; [left; by apply Hk|done].
    + intros [?|Hm]; [left; by apply Hk|right].
      eapply IH1; [|exact Hm]. intros p t; simpl.
      rewrite !andb_true_iff. intros [? ?]; split; [done|by apply IHn].
  - destruct prev; [done|apply Hk].
  - destruct s; [apply Hk|done].
  - destruct (xorb _ _); [apply Hk|done].
Qed.

(** A pattern that starts with [^] matches at the start of the input
    only. *)
Lemma search_Bol_inside r c s : search (Seq Bol r) (Some c) s = false.
Proof.
  revert c; induction s as [|x s IH]; intros c; simpl; [done|]. apply IH.
Qed.

Lemma search_Bol r s :
  search (Seq Bol r) None s = matches r None s (fun _ _ => true).
Proof.
  destruct s as [|x s]; simpl; [by rewrite orb_false_r|].
  by rewrite search_Bol_inside, orb_false_r.
Qed.

Lemma search_here r prev s k :
  matches r prev s k = true → search r prev s = true.
Proof.
  intros Hm. destruct s; simpl; apply orb_true_iff; left;
    by eapply matches_mono; [|exact Hm].
Qed.

Lemma search_later r prev x s : search r (Some x) s = true → search r prev (x :: s) = true.
Proof. simpl. intros ->. apply orb_true_r. Qed.

Lemma search_weaken r r' :
  (∀ prev s, matches r prev s (fun _ _ => true) = true →
             matches r' prev s (fun _ _ => true) = true) →
  ∀ prev s, search r prev s = true → search r' prev s = true.
Proof.
  intros Hr prev s; revert prev. induction s as [|x s IH]; intros prev; simpl;
    rewrite !orb_true_iff; intros [Hm|Hs]; auto.
Qed.

Lemma matches_Chr c prev s k :
  matches (Chr c) prev s k = true → ∃ x t, s = x :: t ∧ k (Some x) t = true.
Proof.
  simpl. destruct s as [|x t]; [done|]. destruct (ci_eqb c x); [eauto|done].
Qed.

(** What follows an optional ["Bild-"] is found by the search. *)
Lemma search_after_bild r r' s k :
  matches (Seq bild (Seq r r')) None s k = true →
  search r None s = true.
Proof.
  change (matches (Seq bild (Seq r r')) None s k)
    with (matches (Lit "Bild-") None s (fun p t => matches r p t (fun p' t' => matches r' p' t' k))
          || matches r None s (fun p' t' => matches r' p' t' k)).
  rewrite orb_true_iff. intros [Hb|Hr]; [|by eapply search_here].
  change (Lit "Bild-") with
    (Seq (Chr "B") (Seq (Chr "i") (Seq (Chr "l") (Seq (Chr "d") (Chr "-"))))) in Hb.
  cbn [matches] in Hb.
  do 5 (destruct s as [|? s]; [done|];
        match type of Hb with
        | (if ?c then _ else _) = true => destruct c; [|done]
        end).
  do 5 apply search_later. by eapply search_here.
Qed.

(** The eight specific CC BY entries of the list. *)
Lemma family_in_broad l (str : string) :
  l ∈ ccby_family →
  Licence.match_ l str = true → Licence.match_ cc str = true.
Proof.
  intros Hl. unfold Licence.match_, test.
  generalize (list_ascii_of_string str) as s. intros s.
  unfold ccby_family in Hl.
  repeat (apply elem_of_cons in Hl as [->|Hl]); [..|by apply elem_of_nil in Hl];
    cbn [Licence.regExp cc_by_2_0_de cc_by_3_0_de cc_by_3_0 cc_by_4_0 cc_by_sa_2_0_de cc_by_sa_3_0_de cc_by_sa_3_0 cc_by_sa_4_0 cc];
    unfold by_de, by_, by_sa_de, by_sa; rewrite search_Bol; intros Hm.
  1,2: by eapply (search_here (Lit "CC-BY")); exact Hm.
  1,2: by eapply (search_here (Lit "CC-BY")); exact Hm.
  all: apply search_after_bild in Hm; revert Hm; apply search_weaken;
    intros prev t Ht;
    change (matches (Lit "CC-BY") prev t
              (fun p t' => matches (Lit "-SA") p t' (fun _ _ => true)) = true) in Ht;
    by eapply matches_mono; [|exact Ht].
Qed.

End Broad.

(** ** Claims about the licence list *)

Section RegistryClaims.

Import LICENCES.

Example find_examples :
  map (fun s => Licence.id (find s))
    [ "CC-BY-SA-3.0"; "Cc-by-sa-4.0"; "Bild-CC-by-sa/3.0/de"; "CC-BY-3.0-migrated";
      "CC-BY-3.0/DE"; "CC-BY-NC-2.0"; "CC-BY-3.0-us"; "Bild-PD"; "PD-old"; "PDF";
      "cc-zero"; "GFDL"; "" ]
  = [ "cc-by-sa-3.0"; "cc-by-sa-4.0"; "cc-by-sa-3.0-de"; "cc-by-3.0";
      "cc-by-3.0-de"; "cc"; "cc"; "PD"; "PD"; "unknown";
      "cc-zero"; "unknown"; "unknown" ].
Proof. by vm_compute. Qed.

(** The entries that accept ["CC-BY-3.0/DE"]: positions 3, 4, 10 and the
    last. *)
Example accepting_entries :
  map (fun l => Licence.match_ l "CC-BY-3.0/DE") licences
  = [false; false; false; true; true; false; false; false; false; false; true; true].
Proof. by vm_compute. Qed.

(** C1. The lookup over the licence list is order-sensitive: when two entries
    of the list accept a string, the lookup returns the first accepting entry
    of the list, which stands no later than the earlier of the two, is never
    the later of the two, and is the earlier of the two itself when nothing
    before it accepts.  The broad entry [cc] is returned exactly for the strings its
    pattern accepts and no earlier entry accepts; it accepts every string
    that a specific CC BY or CC BY-SA entry accepts, and a string it accepts
    is never looked up as [unknown]. *)
Theorem find_first_match_wins (s : string) :
  (∀ i j li lj, (i < j)%nat →
     licences !! i = Some li → licences !! j = Some lj →
     Licence.match_ li s = true → Licence.match_ lj s = true →
     ∃ k, (k ≤ i)%nat ∧ licences !! k = Some (find s)
          ∧ Licence.match_ (find s) s = true
          ∧ none_before licences s k
          ∧ find s ≠ lj
          ∧ (none_before licences s i → find s = li))
  ∧ (find s = cc ↔ Licence.match_ cc s = true ∧ none_before licences s 10)
  ∧ (∀ l, l ∈ ccby_family → Licence.match_ l s = true → Licence.match_ cc s = true)
  ∧ (Licence.match_ cc s = true → find s ≠ unknown).
Proof.
  destruct (find_spec s) as (k & Hk & Hm & Hn).
  split; [|split; [|split]].
  - intros i j li lj Hij Hi Hj Hli Hlj. exists k.
    assert (k ≤ i)%nat as Hle.
    { destruct (decide (k ≤ i)%nat) as [|Hgt]; [done|].
      rewrite (Hn i li) in Hli; [done|lia|done]. }
    repeat split; try done.
    + intros <-.
      pose proof (NoDup_lookup _ _ _ _ licences_NoDup Hk Hj). lia.
    + intros Hni.
      assert (k = i) as -> by (eapply none_before_unique; eauto).
      rewrite Hi in Hk. by inversion Hk.
  - split.
    + intros Hcc. rewrite Hcc in Hk, Hm.
      apply licences_cc_position in Hk as ->. done.
    + intros [Hcc Hn10].
      assert (k = 10%nat) as -> by (eapply (none_before_unique licences s); eauto).
      simpl in Hk. by inversion Hk.
  - intros l. apply family_in_broad.
  - intros Hcc Hu. rewrite Hu in Hk.
    apply licences_unknown_position in Hk as ->.
    by rewrite (Hn 10%nat cc) in Hcc; [|lia|].
Qed.

(** At ["CC-BY-3.0/DE"] the entries at positions 3, 4 and 10 accept; the
    lookup returns the one at position 3. *)
Lemma find_first_match_wins_witness : find "CC-BY-3.0/DE" = cc_by_3_0_de.
Proof.
  destruct (find_first_match_wins "CC-BY-3.0/DE") as [H _].
  destruct (H 3%nat 10%nat cc_by_3_0_de cc) as (k & _ & _ & _ & _ & _ & Hfirst);
    [lia|reflexivity|reflexivity|vm_compute; reflexivity|vm_compute; reflexivity|].
  apply Hfirst. intros m lm Hlt Hm.
  do 3 (destruct m as [|m]; [inversion Hm; subst; vm_compute; reflexivity|]).
  lia.
Defined.

End RegistryClaims.

(** ** Claims about the questionnaire page *)

Section PageClaims.

Import JS QuestionnairePage.

(** What [_log] does to the world: the write, then the 'update' event with
    the state as written. *)
Lemma _log_run page answer value w :
  _log page answer value w =
  (let st := QuestionnaireState.setValue (questionnaireState w) page answer value in
   mkWorld st (input w) (triggered w ++ [Update st]), Ret tt).
Proof. reflexivity. Qed.

Lemma log_and_goTo_run page answer value toPage w :
  (_log page answer value;; _goTo toPage) w =
  (let st := QuestionnaireState.setValue (questionnaireState w) page answer value in
   mkWorld st (input w) (triggered w ++ [Update st; GoTo toPage]), Ret tt).
Proof.
  unfold mbind, M_bind. rewrite _log_run. cbn.
  unfold _goTo, trigger_; cbn. by rewrite <- app_assoc.
Qed.

Lemma getValue_setValue st page answer value :
  QuestionnaireState.getValue (QuestionnaireState.setValue st page answer value) page answer
  = Some (match value with VUndefined => VBool true | _ => value end).
Proof. unfold QuestionnaireState.getValue; simpl. apply lookup_insert_eq. Qed.

Lemma getValue_setValue_ne st page answer value page' answer' :
  (page, answer) ≠ (page', answer') →
  QuestionnaireState.getValue (QuestionnaireState.setValue st page answer value) page' answer'
  = QuestionnaireState.getValue st page' answer'.
Proof. intros Hne. unfold QuestionnaireState.getValue; simpl. by apply lookup_insert_ne. Qed.

Lemma getValue_deleteValue st page answer :
  QuestionnaireState.getValue (QuestionnaireState.deleteValue st page answer) page answer
  = None.
Proof. unfold QuestionnaireState.getValue; simpl. apply lookup_delete_eq. Qed.

(** C5. The handler that [_applyLogAndGoTo] binds to the click on
    ['.a' + answer] writes the answer into the questionnaire state, then
    triggers 'update', then 'goto': the events it adds are the 'update',
    carrying the state with the answer written (as [true]), followed by the
    'goto' to the target page. *)
Theorem applyLogAndGoTo_order (pg : page) (currentPage : string) (answer : Z)
    (toPage : string) :
  ∃ h, bindings (_applyLogAndGoTo pg currentPage answer toPage)
       = (bindings pg ++ [mkBinding (dot_a answer) "click" h])%list
     ∧ ∀ (e : dom_event) (w : world),
         let st := QuestionnaireState.setValue (questionnaireState w)
                     currentPage answer VUndefined in
         h e w = (mkWorld st (input w) (triggered w ++ [Update st; GoTo toPage]), Ret tt)
         ∧ QuestionnaireState.getValue st currentPage answer = Some (VBool true).
Proof.
  eexists. split; [reflexivity|]. intros e w st. split.
  - apply log_and_goTo_run.
  - apply getValue_setValue.
Qed.

Lemma fire_cons b bs el event e :
  fire (b :: bs) el event e =
  if selects (on_selector b) el && String.eqb (on_event b) event
  then handler b e ≫= fun _ => fire bs el event e
  else fire bs el event e.
Proof. reflexivity. Qed.

Lemma bind_run {X Y : Type} (m : M X) (f : X → M Y) w :
  (m ≫= f) w = match m w with
               | (w', Ret a) => f a w'
               | (w', Throw e) => (w', Throw e)
               end.
Proof. reflexivity. Qed.

(** The list of bindings of a page, spelled out. *)
Ltac spell_bindings :=
  cbn [bindings dom_ops on _applyLogAndGoTo _applyGenerics _applyDisabled
       text_field empty_answer app].

(** Dispatch over a spelled-out list: the test of each binding is closed
    and is evaluated. *)
Ltac fire_step :=
  rewrite fire_cons;
  match goal with
  | |- context [selects ?s ?el && String.eqb ?a ?b] =>
      let c := constr:(selects s el && String.eqb a b) in
      let v := eval vm_compute in c in
      change c with v
  end;
  cbv beta iota.

Ltac fire_all := spell_bindings; repeat fire_step; cbn [fire handler].

(** The licences of the list that carry the tag [cc2de]. *)
Lemma cc2de_members l :
  l ∈ LICENCES.licences →
  Licence.isInGroup l "cc2de" = true ↔
  l = LICENCES.cc_by_2_0_de ∨ l = LICENCES.cc_by_sa_2_0_de.
Proof.
  intros Hl. unfold LICENCES.licences in Hl.
  repeat (apply elem_of_cons in Hl as [->|Hl]); [..|by apply elem_of_nil in Hl];
    (split; [intros Hg; vm_compute in Hg; first [discriminate | auto]
            |intros [Heq|Heq]; first [reflexivity | exfalso; vm_compute in Heq; discriminate]]).
Qed.

Section Pages.

Context {A : Type} `{AssetLike A}.
Variable getResult : QuestionnaireState.t → QuestionnaireState.result A.

(** C3. On page "3" the click on answer 3 logs answer 3 (as [true]),
    triggers 'update' with that state, and then goes to "7" when the licence
    of the result's asset is in the group [cc2de] and to
    "result-note-privateUse" when it is not; nothing else enters the choice.
    Of the licence list, [cc-by-2.0-de] and [cc-by-sa-2.0-de] are in the
    group. *)
Theorem page3_answer3 (asset : A) (state : QuestionnaireState.t)
    (e : dom_event) (w : world) (l : Licence.t) :
  let st := QuestionnaireState.setValue (questionnaireState w) "3" 3 VUndefined in
  getLicence (QuestionnaireState.asset (getResult st)) = VLicence l →
  ∃ pg, new getResult "3" asset state = Ret pg
    ∧ fire (bindings pg) (answer_item 3) "click" e w =
        (mkWorld st (input w)
           (triggered w ++
            [Update st;
             GoTo (if Licence.isInGroup l "cc2de" then "7"
                   else "result-note-privateUse")]), Ret tt)
    ∧ QuestionnaireState.getValue st "3" 3 = Some (VBool true)
    ∧ (∀ l', l' ∈ LICENCES.licences →
         Licence.isInGroup l' "cc2de" = true ↔
         l' = LICENCES.cc_by_2_0_de ∨ l' = LICENCES.cc_by_sa_2_0_de).
Proof.
  intros st Hl. eexists. split; [reflexivity|].
  split; [|split; [apply getValue_setValue|apply cc2de_members]].
  destruct (truthy _); fire_all.
  all: rewrite bind_run, bind_run, _log_run;
    unfold mbind, M_bind, get_state, lift; cbn [questionnaireState]; fold st;
    rewrite Hl;
    cbn [call_isInGroup];
    destruct (Licence.isInGroup l "cc2de"); unfold _goTo, trigger_; cbn;
    by rewrite <- app_assoc.
Qed.

(** Without a licence ([getLicence()] returning [null]) the same click logs
    answer 3 and then throws: there is no 'goto'. *)
Lemma page3_answer3_no_licence (asset : A) (state : QuestionnaireState.t)
    (e : dom_event) (w : world) :
  let st := QuestionnaireState.setValue (questionnaireState w) "3" 3 VUndefined in
  getLicence (QuestionnaireState.asset (getResult st)) = VNull →
  ∃ pg, new getResult "3" asset state = Ret pg
    ∧ fire (bindings pg) (answer_item 3) "click" e w =
        (mkWorld st (input w) (triggered w ++ [Update st]), Throw TypeError).
Proof.
  intros st Hl. eexists. split; [reflexivity|].
  destruct (truthy _); fire_all.
  all: rewrite bind_run, bind_run, _log_run;
    unfold mbind, M_bind, get_state, lift; cbn [questionnaireState]; fold st;
    by rewrite Hl.
Qed.

(** C7. On page "3", with the flag [attributionAlthoughExceptionalUse] set
    when the page is built, no click handler is bound to answer 4 (a click on
    it changes nothing and triggers nothing) and the node gets the class
    "disabled"; without the flag, the click on answer 4 logs it and goes to
    "5". *)
Theorem page3_answer4 (asset : A) (state : QuestionnaireState.t) :
  ∃ pg, new getResult "3" asset state = Ret pg
    ∧ (truthy (QuestionnaireState.attributionAlthoughExceptionalUse (getResult state)) = true →
         Forall (fun b => selects (on_selector b) (answer_item 4) = true →
                          on_event b ≠ "click") (bindings pg)
         ∧ (∀ e w, fire (bindings pg) (answer_item 4) "click" e w = (w, Ret tt))
         ∧ AddClass (dot_a 4) "disabled" ∈ dom_ops pg)
    ∧ (truthy (QuestionnaireState.attributionAlthoughExceptionalUse (getResult state)) = false →
         ∀ e w,
           let st := QuestionnaireState.setValue (questionnaireState w) "3" 4 VUndefined in
           fire (bindings pg) (answer_item 4) "click" e w =
             (mkWorld st (input w) (triggered w ++ [Update st; GoTo "5"]), Ret tt)
           ∧ QuestionnaireState.getValue st "3" 4 = Some (VBool true)).
Proof.
  eexists. split; [reflexivity|].
  split; intros Hflag; rewrite Hflag.
  - split; [|split].
    + spell_bindings.
      repeat (apply Forall_cons; split;
              [intros Hs; first [by vm_compute in Hs | by cbn [on_event]]|]).
      apply Forall_nil_2.
    + intros e w. fire_all. reflexivity.
    + spell_bindings. set_solver.
  - intros e w st. split; [|apply getValue_setValue].
    fire_all. rewrite bind_run, log_and_goTo_run. reflexivity.
Qed.

(** Page "2": the click on answer 1, with the target as the page computes
    it from the asset when it is built. *)
Lemma page2_click (asset : A) (state : QuestionnaireState.t) (authors length : value) :
  getAuthors asset VUndefined = Ret authors →
  get authors "length" = Ret length →
  ∃ pg, new getResult "2" asset state = Ret pg
    ∧ ∀ e w,
        let st := QuestionnaireState.setValue (questionnaireState w) "2" 1 (licenceId e) in
        fire (bindings pg) (answer_item 1) "click" e w =
          (mkWorld st (input w)
             (triggered w ++
              [Update st;
               GoTo (if negb (truthy length) then "form-author"
                     else if negb (truthy (getTitle asset)) then "form-title"
                     else if negb (truthy (getUrl asset)) then "form-url"
                     else "3")]), Ret tt).
Proof.
  intros Hauthors Hlength. eexists. split.
  { unfold new, _applyFunctionality, _applyLogic.
    rewrite Hauthors. cbn [mbind res_bind bind]. rewrite Hlength. reflexivity. }
  intros e w st. fire_all. rewrite bind_run, log_and_goTo_run. reflexivity.
Qed.

(** C2. On page "2" the click on answer 1 logs the licence id of the clicked
    node for page "2", answer 1, triggers 'update' with that state and then
    goes to the target computed when the page was built: "form-author" for
    an asset without authors, otherwise "form-title" for one without title,
    otherwise "form-url" for one without URL, and "3" when all three are
    there. *)
Theorem page2_answer1 (asset : A) (state : QuestionnaireState.t)
    (authors : list value) :
  getAuthors asset VUndefined = Ret (VArr authors) →
  ∃ pg target, new getResult "2" asset state = Ret pg
    ∧ (∀ e w,
         let st := QuestionnaireState.setValue (questionnaireState w) "2" 1 (licenceId e) in
         fire (bindings pg) (answer_item 1) "click" e w =
           (mkWorld st (input w) (triggered w ++ [Update st; GoTo target]), Ret tt)
         ∧ (licenceId e ≠ VUndefined →
            QuestionnaireState.getValue st "2" 1 = Some (licenceId e)))
    ∧ (authors = [] → target = "form-author")
    ∧ (authors ≠ [] → truthy (getTitle asset) = false → target = "form-title")
    ∧ (authors ≠ [] → truthy (getTitle asset) = true →
       truthy (getUrl asset) = false → target = "form-url")
    ∧ (authors ≠ [] → truthy (getTitle asset) = true →
       truthy (getUrl asset) = true → target = "3").
Proof.
  intros Hauthors.
  destruct (page2_click asset state _ _ Hauthors eq_refl) as (pg & Hpg & Hclick).
  eexists pg, _. split; [exact Hpg|]. split.
  - intros e w st. split; [apply Hclick|].
    intros Hid. unfold st. rewrite getValue_setValue. by destruct (licenceId e).
  - cbn [String.eqb Ascii.eqb Bool.eqb]. destruct authors as [|a authors].
    + repeat split; done.
    + replace (truthy (VNum (Z.of_nat (length (a :: authors))))) with true
        by (symmetry; apply negb_true_iff, Z.eqb_neq; simpl; lia).
      repeat split; try done; intros _.
      * by intros ->.
      * by intros -> ->.
      * by intros -> ->.
Qed.

End Pages.

End PageClaims.

(** ** Claims about the assets *)

Section AssetClaims.

Import JS.

Lemma or_truthy a b : truthy b = true → truthy (or_ a b) = true.
Proof. unfold or_. by destruct (truthy a) eqn:E. Qed.

(** A property read on a truthy value does not throw. *)
Lemma get_truthy v key : truthy v = true → ∃ x, get v key = Ret x.
Proof. destruct v; simpl; try done; eauto. Qed.

Lemma get_Throw v key e : get v key = Throw e → e = TypeError.
Proof. destruct v; simpl; congruence. Qed.

Lemma strict_ne_null v : strict_ne v VNull = true ↔ v ≠ VNull.
Proof. destruct v; simpl; split; try done. Qed.

(** The guard of the array branch: a boolean is never the string. *)
Lemma not_is_never_string v : strict_ne (not_ v) (VStr "string") = true.
Proof. reflexivity. Qed.

Lemma Asset_getAuthors_stored a options :
  Asset.getAuthors a options = Ret (Asset._authors a).
Proof.
  unfold Asset.getAuthors.
  destruct (get_truthy (or_ options (VObj [])) "format") as [x ->];
    [by apply or_truthy|].
  reflexivity.
Qed.

Lemma AppAsset_getAuthors_stored a options :
  AppAsset.getAuthors a options = Ret (AppAsset._authors a).
Proof.
  unfold AppAsset.getAuthors.
  destruct (get_truthy (or_ options (VObj [])) "format") as [x ->];
    [by apply or_truthy|].
  reflexivity.
Qed.

(** C6. In both Asset implementations [getAuthors] returns the stored
    authors, whatever the options are: the guard [!options.format !==
    'string'] holds for every value of [options.format].  The result is
    never the joined string of a stored array. *)
Theorem getAuthors_ignores_format :
  (∀ format, strict_ne (not_ format) (VStr "string") = true)
  ∧ (∀ a options, Asset.getAuthors a options = Ret (Asset._authors a))
  ∧ (∀ a options, AppAsset.getAuthors a options = Ret (AppAsset._authors a))
  ∧ (∀ a options l, Asset._authors a = VArr l →
       Asset.getAuthors a options ≠ join (VArr l) "; ")
  ∧ (∀ a options l, AppAsset._authors a = VArr l →
       AppAsset.getAuthors a options ≠ join (VArr l) "; ").
Proof.
  repeat split.
  - apply Asset_getAuthors_stored.
  - apply AppAsset_getAuthors_stored.
  - intros a options l Hl. rewrite Asset_getAuthors_stored, Hl. simpl. congruence.
  - intros a options l Hl. rewrite AppAsset_getAuthors_stored, Hl. simpl. congruence.
Qed.

(** Past the guard the constructor does not throw the initialization
    error. *)
Lemma Asset_new_past_guard prefixedFilename title mediaType licence api
    optionalAttributes wikiUrl :
  (negb (truthy prefixedFilename) || negb (truthy title)
   || negb (truthy mediaType)
   || (negb (truthy licence) && strict_ne licence VNull)
   || negb (truthy api)) = false →
  (Asset.new prefixedFilename title mediaType licence api optionalAttributes wikiUrl).2
    = Ret tt
  ∨ (Asset.new prefixedFilename title mediaType licence api optionalAttributes wikiUrl).2
    = Throw TypeError.
Proof.
  intros Hguard. unfold Asset.new. rewrite Hguard.
  destruct (String.eqb (typeof optionalAttributes) "string").
  all: repeat match goal with
       | |- context [get ?v ?k] =>
           let E := fresh in
           destruct (get v k) as [?|?] eqn:E; [|apply get_Throw in E as ->]
       end.
  all: repeat match goal with
       | |- context [if ?c then _ else _] => destruct c
       | |- context [Asset.getDefaultUrl ?a] => destruct a; simpl
       end; auto.
Qed.

(** C10. The constructor throws the error 'No proper initialization
    parameters specified' exactly when [prefixedFilename], [title],
    [mediaType] or [api] is falsy, or [licence] is falsy and not [null]; it
    then has assigned nothing.  A [null] licence is accepted and stored,
    [undefined] and [false] are rejected. *)
Theorem Asset_new_guard (prefixedFilename title mediaType licence api
    optionalAttributes wikiUrl : value) :
  let rejected :=
    truthy prefixedFilename = false ∨ truthy title = false
    ∨ truthy mediaType = false ∨ truthy api = false
    ∨ (truthy licence = false ∧ licence ≠ VNull) in
  let new l := Asset.new prefixedFilename title mediaType l api
                 optionalAttributes wikiUrl in
  ((new licence).2 = Throw Asset.no_proper_parameters ↔ rejected)
  ∧ (rejected → (new licence).1 = Asset.prototype)
  ∧ (truthy prefixedFilename = true → truthy title = true →
     truthy mediaType = true → (∃ defaultUrl, api = VApi defaultUrl) →
     (new VNull).2 = Ret tt ∧ Asset._licence (new VNull).1 = VNull)
  ∧ (new VUndefined).2 = Throw Asset.no_proper_parameters
  ∧ (new (VBool false)).2 = Throw Asset.no_proper_parameters.
Proof.
  intros rejected new.
  assert (rejected ↔
    (negb (truthy prefixedFilename) || negb (truthy title)
     || negb (truthy mediaType)
     || (negb (truthy licence) && strict_ne licence VNull)
     || negb (truthy api)) = true) as Hrej.
  { unfold rejected.
    rewrite !orb_true_iff, andb_true_iff, !negb_true_iff, strict_ne_null. tauto. }
  split; [|split; [|split; [|split]]].
  - rewrite Hrej. split.
    + intros Hthrow.
      destruct (_ || _ || _ || _ || _) eqn:Hguard; [done|].
      destruct (Asset_new_past_guard _ _ _ _ _ optionalAttributes wikiUrl Hguard)
        as [Hr|Hr]; fold (new licence) in Hr; rewrite Hr in Hthrow; done.
    + intros Hguard. unfold new, Asset.new. by rewrite Hguard.
  - rewrite Hrej. intros Hguard. unfold new, Asset.new. by rewrite Hguard.
  - intros Hp Ht Hm [defaultUrl ->]. unfold new, Asset.new.
    rewrite Hp, Ht, Hm. cbn [negb orb andb truthy strict_ne strict_eq].
    destruct (String.eqb (typeof optionalAttributes) "string").
    all: repeat match goal with
         | |- context [get ?v ?k] =>
             let E := fresh in
             destruct (get_truthy v k) as [? E]; [by apply or_truthy|rewrite E]
         end.
    all: repeat match goal with
         | |- context [if ?c then _ else _] => destruct c
         end; done.
  - unfold new, Asset.new. cbn [truthy negb strict_ne strict_eq andb].
    by rewrite !orb_true_r.
  - unfold new, Asset.new. cbn [truthy negb strict_ne strict_eq andb].
    by rewrite !orb_true_r.
Qed.

Lemma append_assoc (s1 s2 s3 : string) : (s1 ++ s2) ++ s3 = s1 ++ (s2 ++ s3).
Proof.
  induction s1 as [|c s1 IH]; [done|].
  change (String c ((s1 ++ s2) ++ s3) = String c (s1 ++ (s2 ++ s3))).
  by rewrite IH.
Qed.

(** What the constructor has assigned when it returns. *)
Lemma Asset_new_Ret prefixedFilename title mediaType licence api
    optionalAttributes wikiUrl a :
  Asset.new prefixedFilename title mediaType licence api optionalAttributes wikiUrl
    = (a, Ret tt) →
  let wikiUrl' :=
    if String.eqb (typeof optionalAttributes) "string"
    then optionalAttributes else wikiUrl in
  Asset._prefixedFilename a = prefixedFilename
  ∧ Asset._title a = title ∧ truthy title = true
  ∧ truthy (Asset._authors a) = true
  ∧ (truthy wikiUrl' = true → Asset._wikiUrl a = wikiUrl')
  ∧ (truthy wikiUrl' = false → api = VApi (Asset._wikiUrl a)).
Proof.
  unfold Asset.new.
  destruct (_ || _ || _ || _ || _) eqn:Hguard; [done|].
  rewrite !orb_false_iff, !negb_false_iff in Hguard.
  destruct Hguard as [[[[Hp Ht] Hm] Hl] Ha].
  destruct (String.eqb (typeof optionalAttributes) "string").
  all: repeat match goal with
       | |- context [get ?v ?k] => destruct (get v k) as [?|?]
       end; try done.
  all: match goal with
       | |- context [if truthy ?c then _ else _] => destruct (truthy c) eqn:Hw
       end.
  all: try (destruct api; simpl; try done).
  all: intros [= <-]; cbn; repeat split; try done; try (by apply or_truthy).
Qed.

Section AssetOnPage2.

Import QuestionnairePage.

Variable getResult : QuestionnaireState.t → QuestionnaireState.result Asset.t.

(** C9. For an asset the constructor has returned, [getUrl()] is the string
    'http:' followed by the wiki URL (the one given, or else what
    [api.getDefaultUrl()] returns), 'wiki/' and the prefixed file name: it is
    never empty.  So page "2", built on such an asset, sends the click on
    answer 1 to "form-author", "form-title" or "3" and never to
    "form-url". *)
Theorem Asset_getUrl_never_empty (prefixedFilename title mediaType licence api
    optionalAttributes wikiUrl : value) (a : Asset.t)
    (state : QuestionnaireState.t) :
  Asset.new prefixedFilename title mediaType licence api optionalAttributes wikiUrl
    = (a, Ret tt) →
  let wikiUrl' :=
    if String.eqb (typeof optionalAttributes) "string"
    then optionalAttributes else wikiUrl in
  Asset.getUrl a =
    VStr ("http:" ++ toStr (Asset._wikiUrl a) ++ "wiki/" ++ toStr prefixedFilename)
  ∧ (truthy wikiUrl' = true → Asset._wikiUrl a = wikiUrl')
  ∧ (truthy wikiUrl' = false → Asset.getDefaultUrl api = Ret (Asset._wikiUrl a))
  ∧ truthy (Asset.getUrl a) = true
  ∧ ∃ pg target, new getResult "2" a state = Ret pg
      ∧ (∀ e w,
           let st := QuestionnaireState.setValue (questionnaireState w) "2" 1 (licenceId e) in
           fire (bindings pg) (answer_item 1) "click" e w =
             (mkWorld st (input w) (triggered w ++ [Update st; GoTo target]), Ret tt))
      ∧ (target = "form-author" ∨ target = "form-title" ∨ target = "3")
      ∧ target ≠ "form-url".
Proof.
  intros Hnew wikiUrl'.
  destruct (Asset_new_Ret _ _ _ _ _ _ _ _ Hnew) as (Hp & Ht & Htt & Hau & Hw1 & Hw2).
  fold wikiUrl' in Hw1, Hw2.
  split; [|split; [|split; [|split]]].
  - unfold Asset.getUrl. rewrite Hp. f_equal.
    by rewrite !append_assoc.
  - exact Hw1.
  - intros Hf. by rewrite (Hw2 Hf).
  - reflexivity.
  - destruct (get_truthy (Asset._authors a) "length" Hau) as [len Hlen].
    destruct (page2_click (H:=Asset_AssetLike) getResult a state (Asset._authors a) len
                (Asset_getAuthors_stored a VUndefined) Hlen)
      as (pg & Hpg & Hclick).
    eexists pg, _. split; [exact Hpg|]. split; [exact Hclick|].
    cbn [getTitle getUrl Asset_AssetLike].
    destruct (negb (truthy len)); [split; [auto|done]|].
    destruct (negb (truthy (Asset.getTitle a))); [split; [auto|done]|].
    change (negb (truthy (Asset.getUrl a))) with false.
    split; [auto|done].
Qed.

End AssetOnPage2.

End AssetClaims.

(** ** Claims about the image information cache *)

Section ImageInfoClaims.

Import JS ImageInfo.

Lemma holds_cached a imageSize v : holds a imageSize v → cached a imageSize = Ret v.
Proof. intros (m & Hm & Hv & _). unfold cached. by rewrite Hm, Hv. Qed.

Lemma getImageInfo_this w imageSize w' :
  getImageInfo w imageSize = Ret w' → this w' = this w.
Proof.
  unfold getImageInfo. destruct (cached (this w) imageSize) as [hit|]; [|done].
  cbn [mbind res_bind bind]. destruct (truthy hit); [by intros [= <-]|].
  destruct (Asset._api (this w)); try done. by intros [= <-].
Qed.

Lemma store_holds a imageSize imageInfo imageSize' v :
  holds a imageSize' v → truthy imageInfo = true →
  ∃ v', holds (store a imageSize imageInfo) imageSize' v'
        ∧ (imageSize ≠ imageSize' → v' = v).
Proof.
  intros (m & Hm & Hv & Ht) Hi. unfold holds, store. cbn. rewrite Hm.
  destruct (decide (imageSize = imageSize')) as [->|Hne].
  - exists imageInfo. split; [|done]. eexists. split; [done|].
    by rewrite lookup_insert_eq.
  - exists v. split; [|done]. eexists. split; [done|].
    by rewrite lookup_insert_ne.
Qed.

(** A truthy entry stays truthy while the Api resolves with objects. *)
Lemma step_holds w e imageSize v :
  holds (this w) imageSize v → resolves_with_object e = true →
  ∃ v', holds (this (step w e)) imageSize v'
        ∧ (match e with ApiDone _ _ => False | _ => True end → v' = v).
Proof.
  intros Hh He. destruct e as [size|k info|k err]; cbn [step].
  - exists v. split; [|done].
    destruct (getImageInfo w size) as [w'|] eqn:Hg; [|done].
    by rewrite (getImageInfo_this _ _ _ Hg).
  - unfold done. destruct (calls w !! k) as [[size [rq|] [| |]]|]; try by eauto.
    cbn [this]. destruct (store_holds _ size info _ _ Hh He) as (v' & Hv' & _).
    exists v'. by split.
  - exists v. split; [|done].
    unfold fail. by destruct (calls w !! k) as [[size [rq|] [| |]]|].
Qed.

Lemma run_holds es : ∀ w imageSize v,
  holds (this w) imageSize v → forallb resolves_with_object es = true →
  ∃ v', holds (this (run w es)) imageSize v'
        ∧ (Forall (fun e => match e with ApiDone _ _ => False | _ => True end) es →
           v' = v).
Proof.
  induction es as [|e es IH]; intros w imageSize v Hh Hes; cbn.
  - exists v. by split.
  - cbn in Hes. apply andb_true_iff in Hes as [He Hes].
    destruct (step_holds w e imageSize v Hh He) as (v1 & Hh1 & Hv1).
    destruct (IH (step w e) imageSize v1 Hh1 Hes) as (v2 & Hh2 & Hv2).
    exists v2. split; [done|].
    intros Hall. apply Forall_cons in Hall as [He' Hall].
    by rewrite (Hv2 Hall), (Hv1 He').
Qed.

(** A call for a size the cache holds is served from the cache. *)
Lemma getImageInfo_hit w imageSize v :
  holds (this w) imageSize v →
  getImageInfo w imageSize =
    Ret (mkWorld (this w) (calls w ++ [mkCall imageSize None (Resolved v)])).
Proof.
  intros Hh. unfold getImageInfo. rewrite (holds_cached _ _ _ Hh).
  destruct Hh as (_ & _ & _ & Ht). cbn [mbind res_bind bind]. by rewrite Ht.
Qed.

Lemma requests_snoc w c :
  requests (mkWorld (this w) (calls w ++ [c]))
  = (requests w ++ match c_request c with Some rq => [rq] | None => [] end)%list.
Proof.
  unfold requests; cbn. rewrite omap_app. cbn. by destruct (c_request c).
Qed.

(** C8. Once the request of a call for a size has resolved (with an object),
    every later call for the same size, whatever has happened in between, is
    resolved at once with the entry of the cache (the resolved object itself,
    as long as no other request has resolved in between) and issues no
    request.  A call for a different size that the cache does not hold
    issues a request of its own, with that size. *)
Theorem getImageInfo_per_size_cache (w : world) (k : nat) (imageSize : Z)
    (rq : request) (imageInfo : value) (es : list event) :
  is_Some (Asset._imageInfo (this w)) →
  calls w !! k = Some (mkCall imageSize (Some rq) Pending) →
  truthy imageInfo = true →
  forallb resolves_with_object es = true →
  let w1 := done w k imageInfo in
  let w2 := run w1 es in
  (calls w1 !! k = Some (mkCall imageSize (Some rq) (Resolved imageInfo)))
  ∧ (∃ v w3,
       getImageInfo w2 imageSize = Ret w3
       ∧ calls w3 = (calls w2 ++ [mkCall imageSize None (Resolved v)])%list
       ∧ requests w3 = requests w2
       ∧ cached (this w2) imageSize = Ret v ∧ truthy v = true
       ∧ (Forall (fun e => match e with ApiDone _ _ => False | _ => True end) es →
          v = imageInfo))
  ∧ (∀ imageSize' defaultUrl,
       imageSize' ≠ imageSize →
       cached (this w) imageSize' = Ret VUndefined →
       Asset._api (this w) = VApi defaultUrl →
       ∃ w3, getImageInfo w1 imageSize' = Ret w3
         ∧ requests w3 =
             (requests w1 ++ [mkRequest (Asset._prefixedFilename (this w)) imageSize'
                                (Asset._wikiUrl (this w))])%list).
Proof.
  intros [m Hm] Hk Hinfo Hes w1 w2.
  assert (w1 = mkWorld (store (this w) imageSize imageInfo)
                 (<[k := mkCall imageSize (Some rq) (Resolved imageInfo)]> (calls w)))
    as Hw1 by (unfold w1, done; by rewrite Hk).
  assert (holds (this w1) imageSize imageInfo) as Hh1.
  { rewrite Hw1. unfold holds, store; cbn. rewrite Hm. eexists. split; [done|].
    by rewrite lookup_insert_eq. }
  split; [|split].
  - rewrite Hw1; cbn. apply list_lookup_insert_eq. by eapply lookup_lt_Some.
  - destruct (run_holds es w1 imageSize imageInfo Hh1 Hes) as (v & Hv & Hsame).
    fold w2 in Hv. exists v. eexists. split; [by apply getImageInfo_hit|].
    split; [done|]. split; [by rewrite requests_snoc, app_nil_r|].
    split; [by apply holds_cached|]. split; [by destruct Hv as (? & ? & ? & ?)|done].
  - intros imageSize' defaultUrl Hne Hmiss Hapi.
    assert (cached (this w1) imageSize' = Ret VUndefined) as Hmiss1.
    { rewrite Hw1. unfold cached, store in *; cbn. rewrite Hm in *.
      by rewrite lookup_insert_ne. }
    unfold getImageInfo. rewrite Hmiss1. cbn [mbind res_bind bind truthy].
    replace (Asset._api (this w1)) with (VApi defaultUrl) by (by rewrite Hw1).
    eexists. split; [done|]. rewrite requests_snoc. by rewrite Hw1.
Qed.

End ImageInfoClaims.

Section FreeText.

Import JS QuestionnairePage.

Example trim_examples :
  map trim ["  Jane Doe "; "Jane"; "   "; ""] = ["Jane Doe"; "Jane"; ""; ""].
Proof. by vm_compute. Qed.

(** What [evaluateInput] does with a text that is not empty after trimming:
    it logs the text as answer 1 and leaves every other answer, answer 2
    among them, as it is. *)
Lemma evaluateInput_text p w :
  trim (input w) ≠ "" →
  let st := QuestionnaireState.setValue (questionnaireState w) p 1 (VStr (trim (input w))) in
  evaluateInput p w = (mkWorld st (input w) (triggered w ++ [Update st]), Ret tt)
  ∧ QuestionnaireState.getValue st p 1 = Some (VStr (trim (input w)))
  ∧ QuestionnaireState.getValue st p 2 = QuestionnaireState.getValue (questionnaireState w) p 2.
Proof.
  intros Hne st. split; [|split].
  - unfold evaluateInput. rewrite bind_run. cbn [val].
    destruct (String.eqb_spec (trim (input w)) ""); [done|].
    cbn [negb]. apply _log_run.
  - apply getValue_setValue.
  - apply getValue_setValue_ne. intros [= _ ?].
Qed.

(** What it does with a text that is empty after trimming: answer 1 is
    removed and answer 2 is logged. *)
Lemma evaluateInput_empty p w :
  trim (input w) = "" →
  let st := QuestionnaireState.setValue
              (QuestionnaireState.deleteValue (questionnaireState w) p 1) p 2 VUndefined in
  evaluateInput p w = (mkWorld st (input w) (triggered w ++ [Update st]), Ret tt)
  ∧ QuestionnaireState.getValue st p 1 = None
  ∧ QuestionnaireState.getValue st p 2 = Some (VBool true).
Proof.
  intros He st. split; [|split].
  - unfold evaluateInput. rewrite bind_run. cbn [val]. rewrite He. reflexivity.
  - unfold st. rewrite getValue_setValue_ne by (intros [= _ ?]; done).
    apply getValue_deleteValue.
  - apply getValue_setValue.
Qed.

(** C4, at an input where the code departs from it.  On page "form-author"
    the user types "J", empties the field and types "Jane": after the last
    keystroke answer 1 holds "Jane", and answer 2, logged when the field was
    empty, is still there. *)
Theorem evaluateInput_keeps_empty_marker :
  ∃ pg, new (Sample.getResult Sample.asset VUndefined) "form-author" Sample.asset
          Sample.state = Ret pg
    ∧ let w1 := Sample.keyup pg "J" Sample.world in
      let w2 := Sample.keyup pg "" w1 in
      let w3 := Sample.keyup pg "Jane" w2 in
      QuestionnaireState.getValue (questionnaireState w1) "form-author" 2 = None
      ∧ QuestionnaireState.getValue (questionnaireState w2) "form-author" 1 = None
      ∧ QuestionnaireState.getValue (questionnaireState w2) "form-author" 2 = Some (VBool true)
      ∧ QuestionnaireState.getValue (questionnaireState w3) "form-author" 1 = Some (VStr "Jane")
      ∧ QuestionnaireState.getValue (questionnaireState w3) "form-author" 2 = Some (VBool true).
Proof.
  eexists. split; [reflexivity|]. vm_compute. repeat split.
Qed.

End FreeText.

(** ** The claims at the sample asset and page *)

Section Instances.

Import JS QuestionnairePage.

(** Page "2" on an asset without authors: the click on answer 1 goes to
    "form-author". *)
Lemma page2_answer1_witness :
  getAuthors Sample.asset VUndefined = Ret (VArr [])
  ∧ ∃ pg target,
      new (Sample.getResult Sample.asset VUndefined) "2" Sample.asset Sample.state = Ret pg
      ∧ triggered (fire (bindings pg) (answer_item 1) "click"
                     (mkDomEvent 0 (VStr "cc-by-sa-2.0-de")) Sample.world).1
        = [Update (QuestionnaireState.setValue Sample.state "2" 1 (VStr "cc-by-sa-2.0-de"));
           GoTo target]
      ∧ target = "form-author".
Proof.
  split; [reflexivity|].
  destruct (page2_answer1 (H:=Asset_AssetLike) (Sample.getResult Sample.asset VUndefined) Sample.asset
              Sample.state [] eq_refl) as (pg & target & Hpg & Hclick & Hnone & _).
  exists pg, target. split; [exact Hpg|]. split; [|by apply Hnone].
  destruct (Hclick (mkDomEvent 0 (VStr "cc-by-sa-2.0-de")) Sample.world) as [-> _].
  reflexivity.
Defined.

(** Page "3" with a licence of the group [cc2de]: answer 3 goes to "7". *)
Lemma page3_answer3_witness :
  getLicence (QuestionnaireState.asset
                (Sample.getResult Sample.asset VUndefined
                   (QuestionnaireState.setValue Sample.state "3" 3 VUndefined)))
    = VLicence LICENCES.cc_by_sa_2_0_de
  ∧ ∃ pg,
      new (Sample.getResult Sample.asset VUndefined) "3" Sample.asset Sample.state = Ret pg
      ∧ triggered (fire (bindings pg) (answer_item 3) "click" Sample.event Sample.world).1
        = [Update (QuestionnaireState.setValue Sample.state "3" 3 VUndefined); GoTo "7"].
Proof.
  split; [reflexivity|].
  destruct (page3_answer3 (H:=Asset_AssetLike) (Sample.getResult Sample.asset VUndefined) Sample.asset
              Sample.state Sample.event Sample.world LICENCES.cc_by_sa_2_0_de eq_refl)
    as (pg & Hpg & Hfire & _).
  exists pg. split; [exact Hpg|]. rewrite Hfire. reflexivity.
Defined.

(** Page "3" with the flag set: the click on answer 4 does nothing. *)
Lemma page3_answer4_witness :
  truthy (QuestionnaireState.attributionAlthoughExceptionalUse
            (Sample.getResult Sample.asset (VBool true) Sample.state)) = true
  ∧ ∃ pg,
      new (Sample.getResult Sample.asset (VBool true)) "3" Sample.asset Sample.state = Ret pg
      ∧ fire (bindings pg) (answer_item 4) "click" Sample.event Sample.world
        = (Sample.world, Ret tt)
      ∧ AddClass (dot_a 4) "disabled" ∈ dom_ops pg.
Proof.
  split; [reflexivity|].
  destruct (page3_answer4 (H:=Asset_AssetLike) (Sample.getResult Sample.asset (VBool true)) Sample.asset
              Sample.state) as (pg & Hpg & Hset & _).
  destruct (Hset eq_refl) as (_ & Hfire & Hclass).
  exists pg. split; [exact Hpg|]. split; [apply Hfire|exact Hclass].
Defined.

(** With [format: 'string'] the stored array comes back all the same. *)
Lemma getAuthors_ignores_format_witness :
  Asset._authors Sample.asset_with_author = VArr [VStr "Jane Doe"]
  ∧ Asset.getAuthors Sample.asset_with_author (VObj [("format", VStr "string")])
    ≠ join (VArr [VStr "Jane Doe"]) "; ".
Proof.
  split; [reflexivity|].
  destruct getAuthors_ignores_format as (_ & _ & _ & Hne & _).
  apply Hne. reflexivity.
Defined.

(** An empty file name is rejected, and nothing is assigned. *)
Lemma Asset_new_guard_witness :
  truthy (VStr "") = false
  ∧ Asset.new (VStr "") (VStr "Example") (VStr "bitmap") VNull Sample.api
      VUndefined VUndefined
    = (Asset.prototype, Throw Asset.no_proper_parameters).
Proof.
  split; [reflexivity|].
  destruct (Asset_new_guard (VStr "") (VStr "Example") (VStr "bitmap") VNull Sample.api
              VUndefined VUndefined) as (Hiff & Hproto & _).
  apply injective_projections; cbn [fst snd].
  - apply Hproto. left. reflexivity.
  - apply Hiff. left. reflexivity.
Defined.

(** The URL of the sample asset. *)
Lemma Asset_getUrl_never_empty_witness :
  Asset.new (VStr "File:Example.jpg") (VStr "Example") (VStr "bitmap")
    (VLicence LICENCES.cc_by_sa_2_0_de) Sample.api VUndefined VUndefined
    = (Sample.asset, Ret tt)
  ∧ Asset.getUrl Sample.asset
    = VStr "http://commons.wikimedia.org/wiki/File:Example.jpg"
  ∧ truthy (Asset.getUrl Sample.asset) = true.
Proof.
  split; [reflexivity|].
  destruct (Asset_getUrl_never_empty (Sample.getResult Sample.asset VUndefined)
              (VStr "File:Example.jpg") (VStr "Example") (VStr "bitmap")
              (VLicence LICENCES.cc_by_sa_2_0_de) Sample.api VUndefined VUndefined
              Sample.asset Sample.state eq_refl) as (Hurl & _ & _ & Htruthy & _).
  split; [rewrite Hurl; reflexivity|exact Htruthy].
Defined.

(** A call for size 200, its request resolved, then more calls: the second
    call for 200 issues no request. *)
Lemma getImageInfo_per_size_cache_witness :
  let w := ImageInfo.step (ImageInfo.mkWorld Sample.asset []) (ImageInfo.Call 200) in
  let rq := ImageInfo.mkRequest (VStr "File:Example.jpg") 200
              (VStr "//commons.wikimedia.org/") in
  let imageInfo := VObj [("thumburl", VStr "//upload.wikimedia.org/Example.jpg")] in
  let es := [ImageInfo.Call 400; ImageInfo.ApiFail 1 (VStr "timeout")] in
  is_Some (Asset._imageInfo (ImageInfo.this w))
  ∧ ImageInfo.calls w !! 0%nat = Some (ImageInfo.mkCall 200 (Some rq) ImageInfo.Pending)
  ∧ truthy imageInfo = true
  ∧ forallb ImageInfo.resolves_with_object es = true
  ∧ ∃ w3,
      ImageInfo.getImageInfo (ImageInfo.run (ImageInfo.done w 0 imageInfo) es) 200 = Ret w3
      ∧ ImageInfo.requests w3
        = ImageInfo.requests (ImageInfo.run (ImageInfo.done w 0 imageInfo) es).
Proof.
  intros w rq imageInfo es.
  assert (is_Some (Asset._imageInfo (ImageInfo.this w))) as H1 by (eexists; reflexivity).
  assert (ImageInfo.calls w !! 0%nat
          = Some (ImageInfo.mkCall 200 (Some rq) ImageInfo.Pending)) as H2 by reflexivity.
  repeat split; try done.
  destruct (getImageInfo_per_size_cache w 0 200 rq imageInfo es H1 H2 eq_refl eq_refl)
    as (_ & (v & w3 & Hget & _ & Hreq & _) & _).
  exists w3. split; [exact Hget|exact Hreq].
Defined.

End Instances.

(** * Further properties of the code *)

(** ** Asset.getImageInfo: failures, open requests, the cache *)

Section ImageInfoMore.

Import JS ImageInfo.

(** A call adds one record, for its size, and leaves the asset alone. *)
Lemma getImageInfo_calls w imageSize w' :
  getImageInfo w imageSize = Ret w' →
  this w' = this w
  ∧ ∃ c, calls w' = (calls w ++ [c])%list ∧ c_imageSize c = imageSize.
Proof.
  unfold getImageInfo. destruct (cached (this w) imageSize) as [hit|]; [|done].
  cbn [mbind res_bind bind]. destruct (truthy hit).
  - intros [= <-]. split; [done|]. by eexists.
  - destruct (Asset._api (this w)); try done. intros [= <-].
    split; [done|]. by eexists.
Qed.

(** A call for a size the cache does not hold (or holds as a falsy value)
    issues a request, whatever requests are open. *)
Lemma getImageInfo_miss w imageSize hit defaultUrl :
  cached (this w) imageSize = Ret hit → truthy hit = false →
  Asset._api (this w) = VApi defaultUrl →
  getImageInfo w imageSize =
    Ret (mkWorld (this w)
           (calls w ++
            [mkCall imageSize
               (Some (mkRequest (Asset._prefixedFilename (this w)) imageSize
                        (Asset._wikiUrl (this w))))
               Pending])).
Proof.
  intros Hc Hf Hapi. unfold getImageInfo. rewrite Hc.
  cbn [mbind res_bind bind]. by rewrite Hf, Hapi.
Qed.

Lemma step_calls w e k c :
  calls w !! k = Some c →
  ∃ c', calls (step w e) !! k = Some c'
        ∧ c_imageSize c' = c_imageSize c ∧ c_request c' = c_request c
        ∧ (c_promise c ≠ Pending → c' = c).
Proof.
  intros Hk. destruct e as [size|k' info|k' err]; cbn [step].
  - destruct (getImageInfo w size) as [w'|] eqn:Hg; [|by eauto].
    apply getImageInfo_calls in Hg as (_ & c0 & -> & _).
    exists c. by rewrite lookup_app_l by (by eapply lookup_lt_Some).
  - unfold done.
    destruct (calls w !! k') as [[size [rq|] [| |]]|] eqn:Hk'; try by eauto.
    cbn [calls]. destruct (decide (k' = k)) as [->|Hne].
    + rewrite list_lookup_insert_eq by (by eapply lookup_lt_Some).
      rewrite Hk in Hk'. injection Hk' as ->. eexists. by repeat split.
    + rewrite list_lookup_insert_ne by done. by eauto.
  - unfold fail.
    destruct (calls w !! k') as [[size [rq|] [| |]]|] eqn:Hk'; try by eauto.
    cbn [calls]. destruct (decide (k' = k)) as [->|Hne].
    + rewrite list_lookup_insert_eq by (by eapply lookup_lt_Some).
      rewrite Hk in Hk'. injection Hk' as ->. eexists. by repeat split.
    + rewrite list_lookup_insert_ne by done. by eauto.
Qed.

(** Settling a promise does not change the list of requests. *)
Lemma requests_insert (l : list call) k c c' :
  l !! k = Some c → c_request c' = c_request c →
  omap c_request (<[k := c']> l) = omap c_request l.
Proof.
  revert k. induction l as [|c0 l IH]; intros [|k] Hk Hr; try done; cbn in *.
  - injection Hk as ->. by rewrite Hr.
  - destruct (c_request c0); [f_equal|]; apply (IH k Hk Hr).
Qed.

(** X1. The record of a call keeps its place, its size and its request
    through everything that happens later, and a promise that has been
    resolved or rejected is never changed again. *)
Theorem settled_promise_is_final (w : world) (es : list event) (k : nat) (c : call) :
  calls w !! k = Some c →
  ∃ c', calls (run w es) !! k = Some c'
        ∧ c_imageSize c' = c_imageSize c ∧ c_request c' = c_request c
        ∧ (c_promise c ≠ Pending → c' = c).
Proof.
  revert w c. induction es as [|e es IH]; intros w c Hk; cbn.
  - by eauto.
  - destruct (step_calls w e k c Hk) as (c1 & Hk1 & Hs1 & Hr1 & Hp1).
    destruct (IH (step w e) c1 Hk1) as (c2 & Hk2 & Hs2 & Hr2 & Hp2).
    exists c2. split; [done|]. split; [congruence|]. split; [congruence|].
    intros Hp. specialize (Hp1 Hp). subst c1. by apply Hp2.
Qed.

(** X2. A rejected request leaves the asset and its cache as they are: the
    promise of the call is rejected with the error, and the next call for the
    size, still not in the cache, issues the request again. *)
Theorem failure_is_not_cached (w : world) (k : nat) (imageSize : Z)
    (rq : request) (error hit defaultUrl : value) :
  calls w !! k = Some (mkCall imageSize (Some rq) Pending) →
  cached (this w) imageSize = Ret hit → truthy hit = false →
  Asset._api (this w) = VApi defaultUrl →
  let w1 := fail w k error in
  this w1 = this w
  ∧ calls w1 !! k = Some (mkCall imageSize (Some rq) (Rejected error))
  ∧ requests w1 = requests w
  ∧ ∃ w2, getImageInfo w1 imageSize = Ret w2
      ∧ requests w2 =
          (requests w ++ [mkRequest (Asset._prefixedFilename (this w)) imageSize
                            (Asset._wikiUrl (this w))])%list.
Proof.
  intros Hk Hc Hf Hapi w1.
  assert (w1 = mkWorld (this w)
                 (<[k := mkCall imageSize (Some rq) (Rejected error)]> (calls w)))
    as Hw1 by (unfold w1, fail; by rewrite Hk).
  assert (requests w1 = requests w) as Hreq.
  { rewrite Hw1. unfold requests; cbn [calls]. by eapply requests_insert. }
  split; [by rewrite Hw1|]. split.
  { rewrite Hw1; cbn. apply list_lookup_insert_eq. by eapply lookup_lt_Some. }
  split; [done|].
  eexists. split.
  - eapply getImageInfo_miss; rewrite Hw1; cbn [this]; eauto.
  - rewrite requests_snoc, Hreq. by rewrite Hw1.
Qed.

Lemma requests_replicate n (c : call) rq :
  c_request c = Some rq → omap c_request (replicate n c) = replicate n rq.
Proof.
  intros Hr. induction n as [|n IH]; [done|].
  cbn [replicate]. change (omap c_request (c :: replicate n c))
    with (match c_request c with
          | Some y => y :: omap c_request (replicate n c)
          | None => omap c_request (replicate n c)
          end).
  by rewrite Hr, IH.
Qed.

(** X3. Requests that are still open are not shared: as long as the size is
    not in the cache, each of [n] calls for it issues a request of its own,
    with the same arguments, and gets a pending promise of its own. *)
Theorem open_requests_are_not_shared (n : nat) (w : world) (imageSize : Z)
    (hit defaultUrl : value) :
  cached (this w) imageSize = Ret hit → truthy hit = false →
  Asset._api (this w) = VApi defaultUrl →
  let rq := mkRequest (Asset._prefixedFilename (this w)) imageSize
              (Asset._wikiUrl (this w)) in
  let w' := run w (replicate n (Call imageSize)) in
  this w' = this w
  ∧ calls w' = (calls w ++ replicate n (mkCall imageSize (Some rq) Pending))%list
  ∧ requests w' = (requests w ++ replicate n rq)%list.
Proof.
  intros Hc Hf Hapi rq w'.
  assert (this w' = this w ∧
          calls w' = (calls w ++ replicate n (mkCall imageSize (Some rq) Pending))%list)
    as [Hthis Hcalls].
  { subst w' rq. revert w Hc Hf Hapi. induction n as [|n IH]; intros w Hc Hf Hapi.
    - cbn. by rewrite app_nil_r.
    - cbn [replicate run fold_left step].
      rewrite (getImageInfo_miss w imageSize hit defaultUrl Hc Hf Hapi).
      set (w1 := mkWorld _ _).
      destruct (IH w1) as [IH1 IH2]; [done..|].
      fold (run w1 (replicate n (Call imageSize))).
      split; [by rewrite IH1|]. rewrite IH2. subst w1; cbn [this calls].
      by rewrite <- app_assoc. }
  split; [done|]. split; [done|].
  unfold requests. rewrite Hcalls, omap_app. f_equal.
  by apply requests_replicate.
Qed.

(** X4. The cache is read by truthiness: a request that resolves with a
    falsy value resolves the promise of its call with that value and writes
    it into the cache, but the next call for the size issues a request
    again. *)
Theorem falsy_result_is_requested_again (w : world) (k : nat) (imageSize : Z)
    (rq : request) (imageInfo defaultUrl : value) :
  is_Some (Asset._imageInfo (this w)) →
  calls w !! k = Some (mkCall imageSize (Some rq) Pending) →
  truthy imageInfo = false →
  Asset._api (this w) = VApi defaultUrl →
  let w1 := done w k imageInfo in
  calls w1 !! k = Some (mkCall imageSize (Some rq) (Resolved imageInfo))
  ∧ cached (this w1) imageSize = Ret imageInfo
  ∧ ∃ w2, getImageInfo w1 imageSize = Ret w2
      ∧ requests w2 =
          (requests w ++ [mkRequest (Asset._prefixedFilename (this w)) imageSize
                            (Asset._wikiUrl (this w))])%list.
Proof.
  intros [m Hm] Hk Hf Hapi w1.
  assert (w1 = mkWorld (store (this w) imageSize imageInfo)
                 (<[k := mkCall imageSize (Some rq) (Resolved imageInfo)]> (calls w)))
    as Hw1 by (unfold w1, done; by rewrite Hk).
  assert (cached (this w1) imageSize = Ret imageInfo) as Hc.
  { rewrite Hw1. unfold cached, store; cbn. rewrite Hm; cbn.
    by rewrite lookup_insert_eq. }
  split.
  { rewrite Hw1; cbn. apply list_lookup_insert_eq. by eapply lookup_lt_Some. }
  split; [done|].
  eexists. split.
  - eapply getImageInfo_miss; [exact Hc|exact Hf|]. rewrite Hw1. exact Hapi.
  - rewrite requests_snoc. cbn [c_request]. rewrite Hw1.
    unfold requests; cbn [calls this store Asset.set_imageInfo
                          Asset._prefixedFilename Asset._wikiUrl].
    f_equal. by eapply requests_insert.
Qed.

Lemma step_from_fresh a w e : from_fresh a w → from_fresh a (step w e).
Proof.
  intros Hw. pose proof Hw as ((m & Hthis & Hcache) & Hrq & Hhit).
  destruct e as [size|k' info|k' err]; cbn [step].
  - destruct (getImageInfo w size) as [w'|] eqn:Hg; [|exact Hw].
    unfold getImageInfo, cached in Hg. rewrite Hthis in Hg. cbn in Hg.
    destruct (truthy (default VUndefined (m !! size))) eqn:Ht.
    + injection Hg as <-. unfold from_fresh; cbn [this calls]. split; [|split].
      * exists m. split; [done|]. intros s x Hv.
        destruct (Hcache s x Hv) as (k & rq & Hk). exists k, rq.
        by rewrite lookup_app_l by (by eapply lookup_lt_Some).
      * intros k c rq Hk Hr. apply lookup_app_Some in Hk as [Hk|[_ Hk]]; [by eauto|].
        apply list_lookup_singleton_Some in Hk as [_ <-]. done.
      * intros k c Hk Hr. apply lookup_app_Some in Hk as [Hk|[_ Hk]]; [by eauto|].
        apply list_lookup_singleton_Some in Hk as [_ <-]. by eauto.
    + destruct (Asset._api a) as [| | | | | | | | |d|] eqn:Hapi; try done.
      injection Hg as <-. unfold from_fresh; cbn [this calls]. split; [|split].
      * exists m. split; [done|]. intros s x Hv.
        destruct (Hcache s x Hv) as (k & rq & Hk). exists k, rq.
        by rewrite lookup_app_l by (by eapply lookup_lt_Some).
      * intros k c rq Hk Hr. apply lookup_app_Some in Hk as [Hk|[_ Hk]]; [by eauto|].
        apply list_lookup_singleton_Some in Hk as [_ <-].
        cbn in Hr. by injection Hr as <-.
      * intros k c Hk Hr. apply lookup_app_Some in Hk as [Hk|[_ Hk]]; [by eauto|].
        apply list_lookup_singleton_Some in Hk as [_ <-]. done.
  - unfold done.
    destruct (calls w !! k') as [[size [rq|] [| |]]|] eqn:Hk';
      try exact Hw.
    unfold from_fresh; cbn [this calls]. split; [|split].
    + exists (<[size := info]> m). split.
      { rewrite Hthis. unfold store. by cbn. }
      intros s x Hv. destruct (decide (size = s)) as [->|Hne].
      * rewrite lookup_insert_eq in Hv. injection Hv as <-.
        exists k', rq. apply list_lookup_insert_eq. by eapply lookup_lt_Some.
      * rewrite lookup_insert_ne in Hv by done.
        destruct (Hcache s x Hv) as (k & rq' & Hk). exists k, rq'.
        rewrite list_lookup_insert_ne; [done|]. intros ->. congruence.
    + intros k c rq' Hk Hr. destruct (decide (k' = k)) as [->|Hne].
      * rewrite list_lookup_insert_eq in Hk by (by eapply lookup_lt_Some).
        injection Hk as <-. cbn in *. by eapply (Hrq k _ _ Hk').
      * rewrite list_lookup_insert_ne in Hk by done. by eauto.
    + intros k c Hk Hr. destruct (decide (k' = k)) as [->|Hne].
      * rewrite list_lookup_insert_eq in Hk by (by eapply lookup_lt_Some).
        by injection Hk as <-.
      * rewrite list_lookup_insert_ne in Hk by done. by eauto.
  - unfold fail.
    destruct (calls w !! k') as [[size [rq|] [| |]]|] eqn:Hk';
      try exact Hw.
    unfold from_fresh; cbn [this calls]. split; [|split].
    + exists m. split; [done|]. intros s x Hv.
      destruct (Hcache s x Hv) as (k & rq' & Hk). exists k, rq'.
      rewrite list_lookup_insert_ne; [done|]. intros ->. congruence.
    + intros k c rq' Hk Hr. destruct (decide (k' = k)) as [->|Hne].
      * rewrite list_lookup_insert_eq in Hk by (by eapply lookup_lt_Some).
        injection Hk as <-. cbn in *. by eapply (Hrq k _ _ Hk').
      * rewrite list_lookup_insert_ne in Hk by done. by eauto.
    + intros k c Hk Hr. destruct (decide (k' = k)) as [->|Hne].
      * rewrite list_lookup_insert_eq in Hk by (by eapply lookup_lt_Some).
        by injection Hk as <-.
      * rewrite list_lookup_insert_ne in Hk by done. by eauto.
Qed.

(** X5. Started on an asset with an empty cache, whatever calls and answers
    follow: the asset changes in its cache only; every entry of the cache is
    the value some request for that size was resolved with; every request
    carries the file name and wiki URL of the asset and the size of its
    call; and a call served without a request was resolved at once with a
    truthy value. *)
Theorem cache_holds_resolved_requests (a : Asset.t) (es : list event) :
  Asset._imageInfo a = Some ∅ →
  from_fresh a (run (mkWorld a []) es).
Proof.
  intros Ha.
  assert (from_fresh a (mkWorld a [])) as H0.
  { split; [|split]; try done. exists ∅. split; [|done].
    destruct a; cbn in *. by rewrite Ha. }
  revert H0. generalize (mkWorld a []). induction es as [|e es IH]; intros w Hw; [done|].
  cbn. apply IH. by apply step_from_fresh.
Qed.

End ImageInfoMore.

(** ** The constructors and getters of the two assets *)

Section AssetMore.

Import JS.

(** X6. With an Api the constructor has two outcomes only: the
    initialization error, or an asset that holds the four required arguments
    and the Api as they were given, authors that are truthy (so that reading
    their [length] cannot throw), and an empty cache; the licence it holds
    is truthy or [null]. *)
Theorem Asset_new_with_api (prefixedFilename title mediaType licence defaultUrl
    optionalAttributes wikiUrl : value) :
  let r := Asset.new prefixedFilename title mediaType licence (VApi defaultUrl)
             optionalAttributes wikiUrl in
  r.2 = Throw Asset.no_proper_parameters
  ∨ (r.2 = Ret tt
     ∧ Asset._prefixedFilename r.1 = prefixedFilename
     ∧ Asset._title r.1 = title
     ∧ Asset._mediaType r.1 = mediaType
     ∧ Asset._licence r.1 = licence
     ∧ Asset._api r.1 = VApi defaultUrl
     ∧ truthy (Asset._authors r.1) = true
     ∧ Asset._imageInfo r.1 = Some ∅
     ∧ truthy prefixedFilename = true ∧ truthy title = true
     ∧ truthy mediaType = true
     ∧ (truthy licence = true ∨ licence = VNull)).
Proof.
  intros r. subst r. unfold Asset.new.
  destruct (_ || _ || _ || _ || _) eqn:Hguard; [by left|right].
  rewrite !orb_false_iff, !negb_false_iff in Hguard.
  destruct Hguard as [[[[Hp Ht] Hm] Hl] _].
  assert (truthy licence = true ∨ licence = VNull) as Hlic.
  { destruct (truthy licence); [by left|right].
    cbn in Hl. by destruct licence. }
  destruct (String.eqb (typeof optionalAttributes) "string").
  all: repeat match goal with
       | |- context [get ?v ?k] =>
           let E := fresh in
           destruct (get_truthy v k) as [? E]; [by apply or_truthy|rewrite E]
       end.
  all: match goal with
       | |- context [if truthy ?c then _ else _] => destruct (truthy c) eqn:Hw
       end.
  all: cbn; repeat split; try done; by apply or_truthy.
Qed.

(** X7. A string in the place of [optionalAttributes] is taken as the wiki
    URL: the asset has no authors and no attribution, the seventh argument is
    ignored, and an empty string gives the default URL of the Api. *)
Theorem Asset_new_string_is_wikiUrl (prefixedFilename title mediaType licence
    defaultUrl wikiUrl wikiUrl' : value) (s : string) :
  truthy prefixedFilename = true → truthy title = true →
  truthy mediaType = true → truthy licence = true ∨ licence = VNull →
  let new w := Asset.new prefixedFilename title mediaType licence (VApi defaultUrl)
                 (VStr s) w in
  new wikiUrl = new wikiUrl'
  ∧ (new wikiUrl).2 = Ret tt
  ∧ Asset._authors (new wikiUrl).1 = VArr []
  ∧ Asset._attribution (new wikiUrl).1 = VNull
  ∧ Asset._wikiUrl (new wikiUrl).1 = (if String.eqb s "" then defaultUrl else VStr s).
Proof.
  intros Hp Ht Hm Hl new. subst new. cbv beta. unfold Asset.new.
  rewrite Hp, Ht, Hm.
  replace (negb (truthy licence) && strict_ne licence VNull) with false
    by (by destruct Hl as [->| ->]).
  cbn [negb orb truthy typeof String.eqb Ascii.eqb Bool.eqb].
  destruct (String.eqb s "") eqn:Hs; repeat split; reflexivity.
Qed.



End AssetMore.

(** ** The questionnaire page: what every handler does *)

Section PageMore.

Import JS QuestionnairePage.

Lemma evaluateInput_run p w :
  ∃ st, evaluateInput p w = (mkWorld st (input w) (triggered w ++ [Update st]), Ret tt)
    ∧ st = (if String.eqb (trim (input w)) ""
            then QuestionnaireState.setValue
                   (QuestionnaireState.deleteValue (questionnaireState w) p 1) p 2 VUndefined
            else QuestionnaireState.setValue (questionnaireState w) p 1
                   (VStr (trim (input w)))).
Proof.
  destruct (String.eqb_spec (trim (input w)) "") as [He|Hne].
  - destruct (evaluateInput_empty p w He) as (Hrun & _). eexists. split; [exact Hrun|done].
  - destruct (evaluateInput_text p w Hne) as (Hrun & _). eexists. split; [exact Hrun|done].
Qed.

Lemma evaluateInput_goTo_run p t w :
  ∃ st, (evaluateInput p;; _goTo t) w
        = (mkWorld st (input w) (triggered w ++ [Update st; GoTo t]), Ret tt)
    ∧ (evaluateInput p w).1 = mkWorld st (input w) (triggered w ++ [Update st]).
Proof.
  destruct (evaluateInput_run p w) as (st & Hrun & _). exists st.
  rewrite bind_run, Hrun. split; [|done].
  unfold _goTo, trigger_; cbn. by rewrite <- app_assoc.
Qed.

Lemma outcome_log_goTo p n v t w :
  t ∈ goto_targets → handler_outcome w ((_log p n v;; _goTo t) w).
Proof.
  intros Ht. right. rewrite log_and_goTo_run. do 2 eexists. split; [by left|].
  right; right. by exists t.
Qed.

Lemma outcome_evaluateInput p w : handler_outcome w (evaluateInput p w).
Proof.
  destruct (evaluateInput_run p w) as (st & -> & _).
  right. do 2 eexists. split; [by left|]. by left.
Qed.

Lemma outcome_evaluateInput_goTo p t w :
  t ∈ goto_targets → handler_outcome w ((evaluateInput p;; _goTo t) w).
Proof.
  intros Ht. destruct (evaluateInput_goTo_run p t w) as (st & -> & _).
  right. do 2 eexists. split; [by left|]. right; right. by exists t.
Qed.

Lemma outcome_empty_goTo p t w :
  t ∈ goto_targets →
  handler_outcome w ((set_val "";; evaluateInput p;; _goTo t) w).
Proof.
  intros Ht. rewrite bind_run. cbn [set_val].
  destruct (evaluateInput_goTo_run p t (mkWorld (questionnaireState w) "" (triggered w)))
    as (st & -> & _).
  right. exists st, "". split; [by right|]. right; right. by exists t.
Qed.

Lemma outcome_nothing w : handler_outcome w (w, Ret tt).
Proof. by left. Qed.

Ltac spell_bindings :=
  cbn [bindings dom_ops on _applyLogAndGoTo _applyGenerics _applyDisabled
       text_field empty_answer app].

Ltac fire_step :=
  rewrite fire_cons;
  match goal with
  | |- context [selects ?s ?el && String.eqb ?a ?b] =>
      let c := constr:(selects s el && String.eqb a b) in
      let v := eval vm_compute in c in
      change c with v
  end;
  cbv beta iota.

Ltac fire_all := spell_bindings; repeat fire_step; cbn [fire handler].

(** The cases of [_applyLogic] for a page id that is not known. *)
Ltac page_cases p :=
  unfold new, _applyFunctionality, _applyLogic;
  repeat match goal with
  | |- context [String.eqb p ?q] =>
      let E := fresh "Hp" in destruct (String.eqb p q) eqn:E
  end.

Ltac in_targets :=
  repeat match goal with
  | |- context [if ?c then _ else _] => destruct c
  end;
  unfold goto_targets; set_solver.

(** X17. Reading the text field changes answers 1 and 2 of the page and
    nothing else: every other answer and the field itself stay as they are;
    answer 1 is there afterwards exactly when the trimmed text is not empty;
    and reading the same field again (the next [keyup] without a change)
    leaves the state as it is. *)
Theorem evaluateInput_touches_two_answers (p : string) (w : world) :
  let w1 := (evaluateInput p w).1 in
  questionnaireState (evaluateInput p w1).1 = questionnaireState w1
  ∧ input w1 = input w
  ∧ (is_Some (QuestionnaireState.getValue (questionnaireState w1) p 1)
     ↔ trim (input w) ≠ "")
  ∧ ∀ page answer, (page, answer) ≠ (p, 1) → (page, answer) ≠ (p, 2) →
      QuestionnaireState.getValue (questionnaireState w1) page answer
      = QuestionnaireState.getValue (questionnaireState w) page answer.
Proof.
  intros w1. subst w1.
  destruct (evaluateInput_run p w) as (st & Hrun & Hst). rewrite Hrun. cbn [fst].
  destruct (evaluateInput_run p (mkWorld st (input w) (triggered w ++ [Update st])))
    as (st2 & Hrun2 & Hst2).
  rewrite Hrun2. cbn [fst questionnaireState input] in *.
  destruct (String.eqb_spec (trim (input w)) "") as [He|Hne]; subst st st2.
  - split; [|split; [done|split]].
    + unfold QuestionnaireState.setValue, QuestionnaireState.deleteValue; cbn.
      f_equal. apply map_eq. intros [pg a].
      destruct (decide ((pg, a) = (p, 2))) as [->|H2]; [by rewrite !lookup_insert_eq|].
      rewrite !lookup_insert_ne by done.
      destruct (decide ((pg, a) = (p, 1))) as [->|H1]; [by rewrite !lookup_delete_eq|].
      assert ((p, 1) ≠ (pg, a)) as H1' by (by intros Heq; apply H1).
      assert ((p, 2) ≠ (pg, a)) as H2' by (by intros Heq; apply H2).
      rewrite (lookup_delete_ne _ _ _ H1'), (lookup_insert_ne _ _ _ _ H2').
      done.
    + rewrite getValue_setValue_ne by (by intros [=]).
      rewrite getValue_deleteValue. split; [by intros [? ?]|done].
    + intros page answer H1 H2. rewrite getValue_setValue_ne by done.
      unfold QuestionnaireState.getValue, QuestionnaireState.deleteValue; cbn.
      by rewrite lookup_delete_ne.
  - split; [|split; [done|split]].
    + unfold QuestionnaireState.setValue; cbn. f_equal. apply insert_insert_eq.
    + rewrite getValue_setValue. split; [done|by eexists].
    + intros page answer H1 H2. by rewrite getValue_setValue_ne.
Qed.

Section AnyAsset.

Context {A : Type} `{AssetLike A}.
Variable getResult : QuestionnaireState.t → QuestionnaireState.result A.

(** X10. Every handler that any page binds, run on any event in any state,
    either does nothing or writes answers, triggers exactly one 'update'
    that carries the state as written, and then at most one 'goto', to one
    of seventeen pages; a handler changes the text field only by emptying it,
    and nothing is triggered before the answers are written. *)
Theorem every_handler_logs_then_goes (p : string) (asset : A)
    (state : QuestionnaireState.t) (pg : page) :
  new getResult p asset state = Ret pg →
  Forall (fun b => ∀ e w, handler_outcome w (handler b e w)) (bindings pg).
Proof.
  page_cases p; cbn [orb].
  all: repeat match goal with
       | |- context [getAuthors ?a VUndefined] =>
           destruct (getAuthors a VUndefined) as [?authors|]; [|done];
           cbn [mbind res_bind bind]
       | |- context [get ?v "length"] =>
           destruct (get v "length") as [?len|]; [|done];
           cbn [mbind res_bind bind]
       end.
  all: intros [= <-].
  all: try match goal with
       | |- context [truthy (QuestionnaireState.attributionAlthoughExceptionalUse ?r)] =>
           destruct (truthy (QuestionnaireState.attributionAlthoughExceptionalUse r))
       end.
  all: spell_bindings.
  all: repeat (apply Forall_cons; split; [intros e w; cbn [handler]|]);
       try apply Forall_nil_2.
  all: try apply outcome_nothing.
  all: try (apply outcome_log_goTo; in_targets).
  all: try apply outcome_evaluateInput.
  all: try (apply outcome_evaluateInput_goTo; in_targets).
  all: try (apply outcome_empty_goTo; in_targets).
  all: try (destruct (keyCode e =? 13);
            [apply outcome_evaluateInput_goTo; in_targets|apply outcome_nothing]).
  all: rewrite bind_run, _log_run; unfold mbind, M_bind, get_state, lift;
    cbn [questionnaireState]; right; do 2 eexists; (split; [by left|]);
    destruct (getLicence _) as [| | | | | | | |l| |]; cbn [call_isInGroup];
    try (right; left; reflexivity);
    right; right;
    destruct (Licence.isInGroup l "cc2de"); eexists;
    (split; [|unfold _goTo, trigger_; cbn; by rewrite <- app_assoc]);
    unfold goto_targets; set_solver.
Qed.

(** A dispatch in which every handler for the event does nothing. *)
Lemma fire_noop (bs : list binding) el event e w :
  Forall (fun b => on_event b = event → ∀ e w, handler b e w = (w, Ret tt)) bs →
  fire bs el event e w = (w, Ret tt).
Proof.
  induction bs as [|b bs IH]; intros Hall; [done|].
  apply Forall_cons in Hall as [Hb Hall]. rewrite fire_cons.
  destruct (selects (on_selector b) el && String.eqb (on_event b) event) eqn:Hsel.
  - apply andb_true_iff in Hsel as [_ Hev]. apply String.eqb_eq in Hev.
    rewrite bind_run, (Hb Hev). by apply IH.
  - by apply IH.
Qed.

(** X11. The page reacts to three events only: an event that is not
    'click', 'keyup' or 'keypress' (the mouse moving over an answer, say),
    on any node of any page, changes no answer and triggers nothing. *)
Theorem other_events_do_nothing (p : string) (asset : A)
    (state : QuestionnaireState.t) (pg : page) (el : element) (event : string)
    (e : dom_event) (w : world) :
  new getResult p asset state = Ret pg →
  event ∉ ["click"; "keyup"; "keypress"] →
  fire (bindings pg) el event e w = (w, Ret tt).
Proof.
  intros Hnew Hev. apply fire_noop. revert Hnew.
  page_cases p; cbn [orb].
  all: repeat match goal with
       | |- context [getAuthors ?a VUndefined] =>
           destruct (getAuthors a VUndefined) as [?authors|]; [|done];
           cbn [mbind res_bind bind]
       | |- context [get ?v "length"] =>
           destruct (get v "length") as [?len|]; [|done];
           cbn [mbind res_bind bind]
       end.
  all: intros [= <-].
  all: try match goal with
       | |- context [truthy (QuestionnaireState.attributionAlthoughExceptionalUse ?r)] =>
           destruct (truthy (QuestionnaireState.attributionAlthoughExceptionalUse r))
       end.
  all: spell_bindings.
  all: repeat (apply Forall_cons; split;
               [cbn [on_event handler]; intros Heq;
                first [ by (intros; reflexivity)
                      | exfalso; apply Hev; rewrite <- Heq; set_solver ]|]);
       apply Forall_nil_2.
Qed.


(** X13. A page id without a case in [_applyLogic] gets the generic mouse
    handlers only: no event on any of its nodes changes an answer or
    triggers anything.  Seven of the 'goto' targets are such pages, so the
    questionnaire ends there: "result-note-cc0", "15",
    "result-note-privateUse", "6", "5a", "12c" and "result-success". *)
Theorem pages_without_logic_are_final (p : string) (asset : A)
    (state : QuestionnaireState.t) :
  p ∉ logic_pages →
  new getResult p asset state = Ret (_applyGenerics (mkPage [] []))
  ∧ (∀ el event e w,
       fire (bindings (_applyGenerics (mkPage [] []))) el event e w = (w, Ret tt))
  ∧ filter (fun t => t ∉ logic_pages) goto_targets
    = ["result-note-cc0"; "15"; "result-note-privateUse"; "6"; "5a";
       "result-success"; "12c"].
Proof.
  intros Hp. split; [|split].
  - page_cases p; cbn [orb]; try reflexivity.
    all: exfalso; apply Hp; unfold logic_pages;
      repeat match goal with
      | E : String.eqb ?x _ = true |- _ => apply String.eqb_eq in E; subst x
      end; set_solver.
  - intros el event e w. apply fire_noop. spell_bindings.
    repeat (apply Forall_cons; split; [by intros _ ? ?|]). apply Forall_nil_2.
  - by vm_compute.
Qed.

Lemma text_target_known p asset : text_target p asset ∈ goto_targets.
Proof. unfold text_target. in_targets. Qed.

Lemma bind_mret (m : M unit) w : (m ≫= fun _ => mret tt) w = m w.
Proof. rewrite bind_run. by destruct (m w) as [w' [[]|x]]. Qed.

(** The handlers of a page with a text field, and where it goes. *)
Lemma text_page_handlers (p : string) (asset : A) (state : QuestionnaireState.t) :
  p ∈ text_pages →
  ∃ pg, new getResult p asset state = Ret pg
    ∧ let target := text_target p asset in
      (∀ e w, fire (bindings pg) text_input "keyup" e w = evaluateInput p w)
      ∧ (∀ e w, fire (bindings pg) text_input "keypress" e w =
                if keyCode e =? 13 then (evaluateInput p;; _goTo target) w
                else (w, Ret tt))
      ∧ (∀ e w, fire (bindings pg) confirm_link "click" e w =
                (evaluateInput p;; _goTo target) w)
      ∧ (p ≠ "13" →
         ∀ e w, fire (bindings pg) (answer_item 2) "click" e w =
                (set_val "";; evaluateInput p;; _goTo target) w).
Proof.
  intros Hp. unfold text_pages in Hp.
  repeat (apply elem_of_cons in Hp as [->|Hp]); [..|by apply elem_of_nil in Hp].
  all: eexists; split; [reflexivity|].
  all: unfold text_target; cbn [String.eqb Ascii.eqb Bool.eqb andb negb].
  all: repeat split; try (intros Hne; first [by destruct Hne | clear Hne]);
    intros e w.
  all: fire_all; rewrite ?bind_mret; try reflexivity.
  all: destruct (keyCode e =? 13); reflexivity.
Qed.

(** X14. On a page with a text field the enter key does what the click on
    the confirming link does: both log the field as [keyup] does and then go
    to the target of the page; any other key pressed does nothing. *)
Theorem enter_key_confirms (p : string) (asset : A) (state : QuestionnaireState.t) :
  p ∈ text_pages →
  ∃ pg target, new getResult p asset state = Ret pg
    ∧ target ∈ goto_targets
    ∧ (∀ e w, keyCode e ≠ 13 →
         fire (bindings pg) text_input "keypress" e w = (w, Ret tt))
    ∧ (∀ e w, keyCode e = 13 →
         fire (bindings pg) text_input "keypress" e w
         = fire (bindings pg) confirm_link "click" e w)
    ∧ (∀ e w, ∃ st,
         fire (bindings pg) text_input "keyup" e w
           = (mkWorld st (input w) (triggered w ++ [Update st]), Ret tt)
         ∧ fire (bindings pg) confirm_link "click" e w
           = (mkWorld st (input w) (triggered w ++ [Update st; GoTo target]), Ret tt)).
Proof.
  intros Hp.
  destruct (text_page_handlers p asset state Hp) as (pg & Hpg & Hup & Hpress & Hclick & _).
  exists pg, (text_target p asset). split; [exact Hpg|]. split; [|split; [|split]].
  - apply text_target_known.
  - intros e w Hk. rewrite Hpress. by apply Z.eqb_neq in Hk as ->.
  - intros e w Hk. rewrite Hpress, Hclick, Hk. reflexivity.
  - intros e w. rewrite Hup, Hclick.
    destruct (evaluateInput_run p w) as (st & Hrun & _). exists st.
    split; [exact Hrun|]. rewrite bind_run, Hrun.
    unfold _goTo, trigger_; cbn. by rewrite <- app_assoc.
Qed.

(** X15. On the form pages and on page "9" the click on answer 2 discards
    what was typed: whatever the field holds, it is emptied, answer 1 is
    removed, answer 2 is logged as [true], and the page goes on to the same
    target as the confirming link. *)
Theorem empty_answer_discards_text (p : string) (asset : A)
    (state : QuestionnaireState.t) :
  p ∈ ["form-author"; "form-title"; "form-url"; "9"] →
  ∃ pg target, new getResult p asset state = Ret pg
    ∧ ∀ e w, ∃ st,
        fire (bindings pg) (answer_item 2) "click" e w
          = (mkWorld st "" (triggered w ++ [Update st; GoTo target]), Ret tt)
        ∧ QuestionnaireState.getValue st p 1 = None
        ∧ QuestionnaireState.getValue st p 2 = Some (VBool true)
        ∧ ∃ st', fire (bindings pg) confirm_link "click" e w
                 = (mkWorld st' (input w) (triggered w ++ [Update st'; GoTo target]), Ret tt).
Proof.
  intros Hp.
  assert (p ∈ text_pages ∧ p ≠ "13") as [Hp' H13].
  { unfold text_pages. rewrite !elem_of_cons, elem_of_nil in Hp.
    split; [rewrite !elem_of_cons; tauto|].
    intros ->. by destruct Hp as [|[|[|[|]]]]. }
  destruct (text_page_handlers p asset state Hp') as (pg & Hpg & _ & _ & Hclick & Hempty).
  exists pg, (text_target p asset). split; [exact Hpg|]. intros e w.
  rewrite (Hempty H13), Hclick. rewrite bind_run. cbn [set_val].
  set (w0 := mkWorld (questionnaireState w) "" (triggered w)).
  destruct (evaluateInput_empty p w0 eq_refl) as (Hrun & H1 & H2).
  eexists. split; [|split; [exact H1|split; [exact H2|]]].
  - rewrite bind_run, Hrun. unfold _goTo, trigger_; cbn. by rewrite <- app_assoc.
  - destruct (evaluateInput_goTo_run p
                (text_target p asset) w) as (st' & Hgo & _).
    by exists st'.
Qed.

(** X16. The three form pages are passed in one direction.  "form-author"
    goes to "form-title" when the asset has no title, else to "form-url"
    when it has no URL, else to "3"; "form-title" goes to "form-url" or "3"
    and never back; "form-url" goes to "3" only. *)
Theorem form_pages_go_forward (asset : A) (state : QuestionnaireState.t) :
  let goes p target :=
    ∃ pg, new getResult p asset state = Ret pg
      ∧ ∀ e w, ∃ st,
          fire (bindings pg) confirm_link "click" e w
          = (mkWorld st (input w) (triggered w ++ [Update st; GoTo target]), Ret tt) in
  goes "form-author"
    (if truthy (getTitle asset)
     then if truthy (getUrl asset) then "3" else "form-url"
     else "form-title")
  ∧ goes "form-title" (if truthy (getUrl asset) then "3" else "form-url")
  ∧ goes "form-url" "3".
Proof.
  intros goes.
  assert (∀ p, p ∈ text_pages → ∀ target,
            target = text_target p asset → goes p target) as Hgoes.
  { intros p Hp target ->.
    destruct (text_page_handlers p asset state Hp) as (pg & Hpg & _ & _ & Hclick & _).
    exists pg. split; [exact Hpg|]. intros e w. rewrite Hclick.
    destruct (evaluateInput_goTo_run p
                (text_target p asset) w) as (st & Hgo & _).
    by exists st. }
  assert (∀ v, truthy v = true → strict_eq v (VStr "") = false) as Hstr.
  { intros v Hv. destruct v; try done. cbn in *. by destruct (String.eqb s ""). }
  split; [|split]; apply Hgoes; try (unfold text_pages; set_solver).
  all: unfold text_target; cbn [String.eqb Ascii.eqb Bool.eqb andb negb].
  all: repeat match goal with
       | |- context [truthy ?v] =>
           let E := fresh in destruct (truthy v) eqn:E;
           [try rewrite (Hstr _ E)|]; cbn [andb negb orb]
       end; reflexivity.
Qed.

End AnyAsset.

Section ConstructedAsset.

Variable getResult : QuestionnaireState.t → QuestionnaireState.result Asset.t.

(** X18. For an asset as the constructor returned it, with its authors set
    to a list afterwards or not, only the authors decide where page "2"
    sends the click on answer 1: to "form-author" when the list is empty, to
    "3" otherwise.  The form pages then all go to "3": neither "form-title"
    nor "form-url" is ever a target for such an asset. *)
Theorem constructed_asset_skips_title_and_url (prefixedFilename title mediaType
    licence api optionalAttributes wikiUrl : value) (a : Asset.t)
    (authors : list value) (state : QuestionnaireState.t) :
  Asset.new prefixedFilename title mediaType licence api optionalAttributes wikiUrl
    = (a, Ret tt) →
  let a' := Asset.setAuthors a (VArr authors) in
  (∃ pg, new getResult "2" a' state = Ret pg
     ∧ ∀ e w, ∃ st,
         fire (bindings pg) (answer_item 1) "click" e w
         = (mkWorld st (input w)
              (triggered w ++
               [Update st; GoTo (match authors with [] => "form-author" | _ => "3" end)]),
            Ret tt))
  ∧ ∀ p, p ∈ ["form-author"; "form-title"; "form-url"] →
      ∃ pg, new getResult p a' state = Ret pg
        ∧ ∀ e w, ∃ st,
            fire (bindings pg) confirm_link "click" e w
            = (mkWorld st (input w) (triggered w ++ [Update st; GoTo "3"]), Ret tt).
Proof.
  intros Hnew a'.
  destruct (Asset_new_Ret _ _ _ _ _ _ _ _ Hnew) as (_ & Ht & Htt & _).
  assert (truthy (Asset.getTitle a') = true) as Htitle by (cbn; by rewrite Ht).
  split.
  - destruct (page2_click (H:=Asset_AssetLike) getResult a' state (VArr authors)
                (VNum (Z.of_nat (length authors)))
                (Asset_getAuthors_stored a' VUndefined) eq_refl)
      as (pg & Hpg & Hclick).
    exists pg. split; [exact Hpg|]. intros e w. eexists. rewrite Hclick.
    cbn [getTitle getUrl Asset_AssetLike]. rewrite Htitle.
    change (negb (truthy (Asset.getUrl a'))) with false.
    by destruct authors.
  - intros p Hp.
    assert (p ∈ text_pages) as Hp'.
    { unfold text_pages. rewrite !elem_of_cons in *. tauto. }
    destruct (text_page_handlers (H:=Asset_AssetLike) getResult p a' state Hp')
      as (pg & Hpg & _ & _ & Hclick & _).
    exists pg. split; [exact Hpg|]. intros e w. rewrite Hclick.
    assert (text_target (H:=Asset_AssetLike) p a' = "3") as ->.
    { unfold text_target. cbn [getTitle getUrl Asset_AssetLike]. rewrite Htitle.
      change (truthy (Asset.getUrl a')) with true.
      rewrite !elem_of_cons, elem_of_nil in Hp.
      by destruct Hp as [->|[->|[->|[]]]]. }
    destruct (evaluateInput_goTo_run p "3" w) as (st & Hgo & _). by exists st.
Qed.

End ConstructedAsset.

End PageMore.

(** ** The licence list: letter case and the start of the string *)

Section RegistryMore.

Import RegExp LICENCES.

Lemma ci_canonicalize a b : ci a b → canonicalize a = canonicalize b.
Proof.
  unfold ci, ci_eqb, code. intros Heq. apply Nat.eqb_eq in Heq.
  rewrite <- (ascii_nat_embedding (canonicalize a)),
          <- (ascii_nat_embedding (canonicalize b)).
  by rewrite Heq.
Qed.

Lemma line_terminator_canonicalize a :
  is_line_terminator (canonicalize a) = is_line_terminator a.
Proof. by destruct a as [[|] [|] [|] [|] [|] [|] [|] [|]]. Qed.

Lemma word_char_canonicalize a : is_word_char (canonicalize a) = is_word_char a.
Proof. by destruct a as [[|] [|] [|] [|] [|] [|] [|] [|]]. Qed.

Lemma ci_eqb_ci c a b : ci a b → ci_eqb c a = ci_eqb c b.
Proof. intros Hab. unfold ci_eqb. by rewrite (ci_canonicalize a b Hab). Qed.

Lemma ci_line_terminator a b : ci a b → is_line_terminator a = is_line_terminator b.
Proof.
  intros Hab. rewrite <- (line_terminator_canonicalize a),
                      <- (line_terminator_canonicalize b).
  by rewrite (ci_canonicalize a b Hab).
Qed.

Lemma ci_word_char a b : ci a b → is_word_char a = is_word_char b.
Proof.
  intros Hab. rewrite <- (word_char_canonicalize a), <- (word_char_canonicalize b).
  by rewrite (ci_canonicalize a b Hab).
Qed.

Lemma ci_is_word p q : ci_opt p q → is_word p = is_word q.
Proof. destruct p, q; try done. apply ci_word_char. Qed.

Lemma ci_hd (s t : list ascii) : Forall2 ci s t → ci_opt (hd_error s) (hd_error t).
Proof. by intros [|]. Qed.

(** The matcher does not tell such strings apart. *)
Lemma matches_ci r : ∀ prev prev' s t k k',
  ci_opt prev prev' → Forall2 ci s t →
  (∀ p p' u v, ci_opt p p' → Forall2 ci u v → k p u = k' p' v) →
  matches r prev s k = matches r prev' t k'.
Proof.
  induction r as [|c| |cs|r1 IH1 r2 IH2|r1 IH1 r2 IH2|r1 IH1|r1 IH1| | |];
    intros prev prev' s t k k' Hp Hs Hk; simpl.
  - by apply Hk.
  - destruct Hs as [|x y s t Hxy Hs]; [done|].
    rewrite (ci_eqb_ci c x y Hxy). destruct (ci_eqb c y); [by apply Hk|done].
  - destruct Hs as [|x y s t Hxy Hs]; [done|].
    rewrite (ci_line_terminator x y Hxy).
    destruct (is_line_terminator y); [done|by apply Hk].
  - destruct Hs as [|x y s t Hxy Hs]; [done|].
    replace (existsb (fun c => ci_eqb c x) cs) with (existsb (fun c => ci_eqb c y) cs).
    + destruct (existsb _ cs); [done|by apply Hk].
    + induction cs as [|c cs IHcs]; [done|]. simpl.
      by rewrite IHcs, (ci_eqb_ci c x y Hxy).
  - apply IH1; [done..|]. intros p p' u v Hpp Huv. by apply IH2.
  - f_equal; [by apply IH1|by apply IH2].
  - f_equal; [by apply IH1|by apply Hk].
  - rewrite (Forall2_length _ _ _ Hs). generalize (length t) as n. intros n.
    revert prev prev' s t Hp Hs.
    induction n as [|n IHn]; intros prev prev' s t Hp Hs.
    + f_equal. by apply Hk.
    + f_equal; [by apply Hk|]. apply IH1; [done..|].
      intros p p' u v Hpp Huv.
      rewrite (Forall2_length _ _ _ Huv), (Forall2_length _ _ _ Hs).
      f_equal. by apply IHn.
  - destruct prev, prev'; try done. by apply Hk.
  - destruct Hs; [by apply Hk|done].
  - rewrite (ci_is_word _ _ Hp), (ci_is_word _ _ (ci_hd _ _ Hs)).
    destruct (xorb _ _); [by apply Hk|done].
Qed.

Lemma search_ci r : ∀ prev prev' s t,
  ci_opt prev prev' → Forall2 ci s t → search r prev s = search r prev' t.
Proof.
  intros prev prev' s t Hp Hs. revert prev prev' Hp.
  induction Hs as [|x y s t Hxy Hs IH]; intros prev prev' Hp; simpl.
  - f_equal. by apply matches_ci.
  - f_equal; [apply matches_ci; by try constructor|]. by apply IH.
Qed.

Lemma match_ci l s t : ci_equal s t → Licence.match_ l s = Licence.match_ l t.
Proof.
  intros Hst. unfold Licence.match_. destruct (Licence.regExp l); [|done].
  by apply search_ci.
Qed.

Lemma find_in_ci ls s t : ci_equal s t → find_in ls s = find_in ls t.
Proof.
  intros Hst. induction ls as [|l ls IH]; [done|]. simpl.
  by rewrite (match_ci l s t Hst), IH.
Qed.

(** X19. Every pattern of the list carries the [i] flag: two strings that
    differ in letter case only are accepted by the same patterns, and so the
    lookup (by first match) gives the same licence for both. *)
Theorem find_ignores_case (s t : string) :
  ci_equal s t →
  Forall (fun l => ∀ r, Licence.regExp l = Licence.PRegExp r → test r s = test r t)
    licences
  ∧ find s = find t.
Proof.
  intros Hst. split.
  - apply Forall_forall. intros l _ r _. by apply search_ci.
  - unfold find. by rewrite (find_in_ci licences s t Hst).
Qed.

Ltac in_list := repeat first [apply list_elem_of_here | apply list_elem_of_further].

Lemma find_in_cons l ls s :
  find_in (l :: ls) s = if Licence.match_ l s then Some l else find_in ls s.
Proof. reflexivity. Qed.

Lemma list_ascii_app (s t : string) :
  list_ascii_of_string (s ++ t) = (list_ascii_of_string s ++ list_ascii_of_string t)%list.
Proof. induction s as [|c s IH]; [done|]. cbn. by rewrite <- IH. Qed.

Lemma ci_refl a : ci a a.
Proof. unfold ci, ci_eqb. apply Nat.eqb_refl. Qed.

Lemma ci_equal_app (s s' t : string) : ci_equal s s' → ci_equal (s ++ t) (s' ++ t).
Proof.
  unfold ci_equal. intros Hs. rewrite !list_ascii_app. apply Forall2_app; [done|].
  induction (list_ascii_of_string t); constructor; [apply ci_refl|done].
Qed.

(** The six entries before the share-alike ones reject a string that starts
    like a share-alike name. *)
Lemma not_share_alike_rejects (pre t : string) l :
  pre = "CC-BY-SA" ∨ pre = "Bild-CC-BY-SA" →
  l ∈ [PD; cc_zero; cc_by_2_0_de; cc_by_3_0_de; cc_by_3_0; cc_by_4_0] →
  Licence.match_ l (pre ++ t) = false.
Proof.
  intros Hpre Hl. unfold Licence.match_, test.
  repeat (apply elem_of_cons in Hl as [->|Hl]); [..|by apply elem_of_nil in Hl];
    cbn [Licence.regExp PD cc_zero cc_by_2_0_de cc_by_3_0_de cc_by_3_0 cc_by_4_0];
    unfold by_de, by_; rewrite search_Bol;
    destruct Hpre as [-> | ->]; by vm_compute.
Qed.

Lemma share_alike_in_broad (pre t : string) :
  pre = "CC-BY-SA" ∨ pre = "Bild-CC-BY-SA" → Licence.match_ cc (pre ++ t) = true.
Proof.
  intros Hpre. unfold Licence.match_, test. cbn [Licence.regExp cc].
  destruct Hpre as [-> | ->].
  - by eapply (search_here _ _ _ (fun _ _ => true)); vm_compute.
  - change (list_ascii_of_string ("Bild-CC-BY-SA" ++ t))
      with ("B" :: "i" :: "l" :: "d" :: "-" :: list_ascii_of_string ("CC-BY-SA" ++ t))%char.
    do 5 apply search_later.
    by eapply (search_here _ _ _ (fun _ _ => true)); vm_compute.
Qed.

(** X20. A string that starts with "CC-BY-SA" or "Bild-CC-BY-SA", in any
    letter case and whatever follows, is rejected by the patterns of the six
    entries that stand before the share-alike ones and accepted by the
    pattern of [cc].  So the lookup (by first match) gives one of the four
    share-alike licences or the broad [cc]: never public domain, CC0, an
    attribution-only licence (group "ccby") or [unknown]. *)
Theorem share_alike_stays_share_alike (pre t : string) :
  ci_equal pre "CC-BY-SA" ∨ ci_equal pre "Bild-CC-BY-SA" →
  Forall (fun l => ∃ r, Licence.regExp l = Licence.PRegExp r ∧ test r (pre ++ t) = false)
    [PD; cc_zero; cc_by_2_0_de; cc_by_3_0_de; cc_by_3_0; cc_by_4_0]
  ∧ test (Lit "CC-BY") (pre ++ t) = true
  ∧ find (pre ++ t) ∈ [cc_by_sa_2_0_de; cc_by_sa_3_0_de; cc_by_sa_3_0; cc_by_sa_4_0; cc]
  ∧ Licence.isInGroup (find (pre ++ t)) "ccby" = false.
Proof.
  intros Hpre.
  assert (∀ l, l ∈ [PD; cc_zero; cc_by_2_0_de; cc_by_3_0_de; cc_by_3_0; cc_by_4_0] →
               Licence.match_ l (pre ++ t) = false) as Hrej.
  { intros l Hl.
    destruct Hpre as [Hci|Hci]; rewrite (match_ci l _ _ (ci_equal_app _ _ t Hci));
      apply not_share_alike_rejects; auto. }
  assert (Licence.match_ cc (pre ++ t) = true) as Hcc.
  { destruct Hpre as [Hci|Hci]; rewrite (match_ci cc _ _ (ci_equal_app _ _ t Hci));
      apply share_alike_in_broad; auto. }
  assert (find (pre ++ t) ∈
          [cc_by_sa_2_0_de; cc_by_sa_3_0_de; cc_by_sa_3_0; cc_by_sa_4_0; cc]) as Hin.
  { unfold find, licences. rewrite !find_in_cons.
    rewrite !Hrej by in_list. rewrite Hcc.
    repeat match goal with
    | |- context [Licence.match_ ?l ?s] => destruct (Licence.match_ l s)
    end; in_list. }
  split; [|split; [exact Hcc|split; [exact Hin|]]].
  - apply Forall_forall. intros l Hl. pose proof (Hrej l Hl) as Hm.
    repeat (apply elem_of_cons in Hl as [->|Hl]); [..|by apply elem_of_nil in Hl];
      (eexists; split; [reflexivity|exact Hm]).
  - repeat (apply elem_of_cons in Hin as [->|Hin]); [..|by apply elem_of_nil in Hin];
      reflexivity.
Qed.

(** X21. The specific patterns are tied to the start of the string: a
    string whose first character is none of B, C and P (in either case), a
    leading blank for one, is rejected by the patterns of all ten specific
    entries.  So the lookup (by first match) never gives a specific licence
    for it: it gives [cc] if "CC-BY" occurs in the string and [unknown] if
    not. *)
Theorem first_character_decides (a : ascii) (s : string) :
  ci_eqb "B" a = false → ci_eqb "C" a = false → ci_eqb "P" a = false →
  Forall (fun l => ∃ r, Licence.regExp l = Licence.PRegExp r
                        ∧ test r (String a s) = false)
    [PD; cc_zero; cc_by_2_0_de; cc_by_3_0_de; cc_by_3_0; cc_by_4_0;
     cc_by_sa_2_0_de; cc_by_sa_3_0_de; cc_by_sa_3_0; cc_by_sa_4_0]
  ∧ find (String a s) = if test (Lit "CC-BY") (String a s) then cc else unknown.
Proof.
  intros HB HC HP.
  assert (∀ l, l ∈ [PD; cc_zero; cc_by_2_0_de; cc_by_3_0_de; cc_by_3_0; cc_by_4_0;
                    cc_by_sa_2_0_de; cc_by_sa_3_0_de; cc_by_sa_3_0; cc_by_sa_4_0] →
               Licence.match_ l (String a s) = false) as Hrej.
  { intros l Hl. unfold Licence.match_, test.
    repeat (apply elem_of_cons in Hl as [->|Hl]); [..|by apply elem_of_nil in Hl];
      cbn [Licence.regExp PD cc_zero cc_by_2_0_de cc_by_3_0_de cc_by_3_0 cc_by_4_0
           cc_by_sa_2_0_de cc_by_sa_3_0_de cc_by_sa_3_0 cc_by_sa_4_0];
      unfold by_de, by_, by_sa_de, by_sa, bild; rewrite search_Bol;
      cbn [list_ascii_of_string matches Lit];
      try change (ci_eqb "c" a) with (ci_eqb "C" a);
      by rewrite ?HB, ?HC, ?HP. }
  split.
  - apply Forall_forall. intros l Hl. pose proof (Hrej l Hl) as Hm.
    repeat (apply elem_of_cons in Hl as [->|Hl]); [..|by apply elem_of_nil in Hl];
      (eexists; split; [reflexivity|exact Hm]).
  - unfold find, licences. rewrite !find_in_cons.
    rewrite !Hrej by in_list.
    change (Licence.match_ cc (String a s)) with (test (Lit "CC-BY") (String a s)).
    by destruct (test (Lit "CC-BY") (String a s)).
Qed.

End RegistryMore.

(** ** Asset.getFilename *)

Section Filename.

Import RegExp JS Replace.

Lemma ci_colon x : ci_eqb ":" x = true ↔ x = ":"%char.
Proof.
  destruct x as [[|] [|] [|] [|] [|] [|] [|] [|]]; vm_compute; split; congruence.
Qed.

Lemma not_colon x : x ≠ ":"%char → ci_eqb ":" x = false.
Proof.
  intros Hx. destruct (ci_eqb ":" x) eqn:E; [|done]. by apply ci_colon in E.
Qed.

(** One round of the repetition of [[^:]]. *)
Lemma star_no_colon_cons {X : Type} prev x t (k : option ascii → list ascii → option X) :
  run (Star (NoneOf [":"%char])) prev (x :: t) k =
  orelse (if ci_eqb ":" x then None else run (Star (NoneOf [":"%char])) (Some x) t k)
         (k prev (x :: t)).
Proof.
  cbn [run length existsb]. rewrite orb_false_r.
  destruct (ci_eqb ":" x); [done|].
  by rewrite (proj2 (Nat.ltb_lt _ _) (Nat.lt_succ_diag_r (length t))).
Qed.

(** The repetition takes everything up to the first colon. *)
Lemma star_up_to_colon {X : Type} (pre rest : list ascii)
    (k : option ascii → list ascii → option X) (v : X) :
  Forall (fun c => c ≠ ":"%char) pre →
  k (Some ":"%char) rest = Some v →
  ∀ prev,
    run (Star (NoneOf [":"%char])) prev (pre ++ ":"%char :: rest)
      (fun p t => run (Chr ":") p t k) = Some v.
Proof.
  intros Hpre Hk. induction Hpre as [|x pre Hx Hpre IH]; intros prev.
  - cbn [app]. rewrite star_no_colon_cons.
    rewrite (proj2 (ci_colon ":") eq_refl). cbn [orelse run].
    by rewrite (proj2 (ci_colon ":") eq_refl).
  - cbn [app]. by rewrite star_no_colon_cons, (not_colon x Hx), IH.
Qed.

(** Without a colon there is no match. *)
Lemma star_without_colon {X : Type} (s : list ascii)
    (k : option ascii → list ascii → option X) :
  Forall (fun c => c ≠ ":"%char) s →
  ∀ prev, run (Star (NoneOf [":"%char])) prev s (fun p t => run (Chr ":") p t k) = None.
Proof.
  induction 1 as [|x s Hx Hs IH]; intros prev; [done|].
  rewrite star_no_colon_cons, (not_colon x Hx), IH. cbn [orelse run].
  by rewrite (not_colon x Hx).
Qed.

(** A pattern that starts with [^] matches at the start only. *)
Lemma first_match_Bol_later r x before s :
  first_match (Seq Bol r) (x :: before) s = None.
Proof.
  revert x before. induction s as [|y s IH]; intros x before; [done|].
  cbn [first_match run hd_error orelse]. apply IH.
Qed.

Lemma first_match_prefix (s : list ascii) :
  first_match prefix_pattern [] s =
  match s with
  | x :: t =>
      if ci_eqb ":" x then None
      else run (Star (NoneOf [":"%char])) (Some x) t
             (fun p u => run (Chr ":") p u (fun _ rest => Some ([], rest)))
  | [] => None
  end.
Proof.
  destruct s as [|x t]; [done|].
  unfold prefix_pattern, Plus. cbn [first_match]. rewrite first_match_Bol_later.
  cbn [run hd_error existsb rev]. rewrite orb_false_r.
  destruct (ci_eqb ":" x); [done|].
  match goal with |- orelse ?r None = _ => by destruct r end.
Qed.

(** X22. [getFilename] removes the name space: of a name with a colon that
    is not its first character, what follows the first colon is returned; a
    name without colon, or one that starts with a colon, is returned as it
    is.  On a file name that is not a string (the constructor lets any truthy
    value pass) it throws. *)
Theorem getFilename_strips_namespace (a : Asset.t) :
  (∀ c pre rest,
     Asset._prefixedFilename a = VStr (String c pre ++ String ":" rest) →
     no_colon (String c pre) →
     getFilename a = Ret (VStr rest))
  ∧ (∀ s, Asset._prefixedFilename a = VStr s → no_colon s →
       getFilename a = Ret (VStr s))
  ∧ (∀ rest, Asset._prefixedFilename a = VStr (String ":" rest) →
       getFilename a = Ret (VStr (String ":" rest)))
  ∧ ((∀ s, Asset._prefixedFilename a ≠ VStr s) → getFilename a = Throw TypeError).
Proof.
  unfold getFilename, replace, no_colon. split; [|split; [|split]].
  - intros c pre rest -> Hpre. do 2 f_equal.
    rewrite list_ascii_app, first_match_prefix. cbn [list_ascii_of_string app] in *.
    apply Forall_cons in Hpre as [Hc Hpre]. rewrite (not_colon c Hc).
    rewrite (star_up_to_colon _ _ _ ([], list_ascii_of_string rest) Hpre eq_refl).
    cbn. apply string_of_list_ascii_of_string.
  - intros s -> Hs. do 2 f_equal. rewrite first_match_prefix.
    destruct Hs as [|x t Hx Ht]; [done|].
    by rewrite (not_colon x Hx), (star_without_colon t _ Ht).
  - intros rest ->. do 2 f_equal. rewrite first_match_prefix.
    cbn [list_ascii_of_string]. by rewrite (proj2 (ci_colon ":") eq_refl).
  - intros Hs. destruct (Asset._prefixedFilename a); try done. by destruct (Hs s).
Qed.

End Filename.


(** ** The check box animation *)

Section AnimationMore.

Import Animation.

Lemma pending_weight n : pending n = sum_list (map weight (chains n)).
Proof. reflexivity. Qed.

Lemma sum_list_insert_with {X : Type} (f : X → nat) (l : list X) i c c' :
  l !! i = Some c →
  (sum_list (map f (<[i := c']> l)) + f c = sum_list (map f l) + f c')%nat.
Proof.
  revert i. induction l as [|c0 l IH]; intros [|i] Hi; try done.
  - injection Hi as ->.
    change (f c' + sum_list (map f l) + f c = f c + sum_list (map f l) + f c')%nat.
    generalize (sum_list (map f l)) (f c) (f c'). intros; lia.
  - specialize (IH i Hi).
    change (f c0 + sum_list (map f (<[i := c']> l)) + f c
            = f c0 + sum_list (map f l) + f c')%nat.
    revert IH.
    generalize (sum_list (map f l)) (sum_list (map f (<[i := c']> l))) (f c) (f c') (f c0).
    intros; lia.
Qed.

Lemma sum_list_insert (l : list chain) i c c' :
  l !! i = Some c →
  (sum_list (map weight (<[i := c']> l)) + weight c
   = sum_list (map weight l) + weight c')%nat.
Proof. apply sum_list_insert_with. Qed.

Lemma next_pending i n c :
  chains n !! i = Some c → ch_timer c = false →
  (pending (next i n) ≤ pending n + length (ch_queue c))%nat.
Proof.
  intros Hi Ht. unfold next. rewrite Hi. rewrite !pending_weight.
  assert (weight c = 0%nat) as Hw by (unfold weight; by rewrite Ht).
  destruct (default false (resolved n !! ch_deferred c));
    [|destruct (ch_queue c) as [|f q] eqn:Hq]; cbn [chains].
  all: match goal with
       | |- context [<[_ := ?c']> (chains _)] =>
           pose proof (sum_list_insert (chains n) i c c' Hi) as Hs;
           rewrite Hw in Hs;
           let w := eval cbn in (weight c') in
           change (weight c') with w in Hs
       end.
  all: cbn [length];
    revert Hs; generalize (sum_list (map weight (chains n)));
    match goal with
    | |- context [sum_list ?l] => generalize (sum_list l)
    end; intros; lia.
Qed.

Lemma step_pending n e :
  (fired n [e] + pending (step n e)
   ≤ pending n + match e with MouseOver => 4 | _ => 0 end)%nat.
Proof.
  destruct e as [| |i]; cbn [step fired].
  - unfold _startCheckboxAnimation.
    set (n1 := mkNode _ _ _ _).
    assert (chains n1 !! length (chains n)
            = Some (mkChain (length (resolved n)) [-1; -2; -3; -4] false)) as Hi
      by (subst n1; cbn; by rewrite lookup_app_r, Nat.sub_diag by lia).
    pose proof (next_pending _ n1 _ Hi eq_refl) as Hle. cbn [ch_queue length] in Hle.
    assert (pending n1 = pending n) as Hp.
    { subst n1. rewrite !pending_weight. cbn [chains].
      rewrite map_app, sum_list_with_app. cbn. apply Nat.add_0_r. }
    revert Hle. rewrite Hp. generalize (pending n) (pending (next (length (chains n)) n1)).
    intros; lia.
  - assert (pending (_stopCheckboxAnimation n) = pending n) as ->
      by (unfold _stopCheckboxAnimation; by destruct (data n)).
    generalize (pending n). intros; lia.
  - unfold timeout. destruct (chains n !! i) as [c|] eqn:Hi;
      [|generalize (pending n); intros; lia].
    destruct (ch_timer c) eqn:Ht; [|generalize (pending n); intros; lia].
    set (n1 := mkNode _ _ _ _).
    assert (chains n1 !! i = Some (mkChain (ch_deferred c) (ch_queue c) false)) as Hi1.
    { subst n1; cbn. apply list_lookup_insert_eq. by eapply lookup_lt_Some. }
    pose proof (next_pending _ n1 _ Hi1 eq_refl) as Hle. cbn [ch_queue] in Hle.
    assert (pending n1 + S (length (ch_queue c)) = pending n)%nat as Hp.
    { subst n1. rewrite !pending_weight. cbn [chains].
      pose proof (sum_list_insert (chains n) i c
                    (mkChain (ch_deferred c) (ch_queue c) false) Hi) as Hs.
      assert (weight c = S (length (ch_queue c))) as Hw by (unfold weight; by rewrite Ht).
      rewrite Hw in Hs.
      change (weight (mkChain (ch_deferred c) (ch_queue c) false)) with 0%nat in Hs.
      revert Hs. generalize (sum_list (map weight (chains n))).
      match goal with |- context [sum_list ?l] => generalize (sum_list l) end.
      intros; lia. }
    revert Hle Hp. generalize (pending n) (pending (next i n1)) (pending n1).
    intros; lia.
Qed.

(** X23. An animation comes to an end: however the mouse events and the
    time-outs follow each other, at most four time-outs fire for each call of
    [_startCheckboxAnimation], over and above the stages that were pending
    at the start. *)
Theorem animation_is_bounded (n : node) (es : list event) :
  (fired n es + pending (run n es) ≤ pending n + 4 * starts es)%nat.
Proof.
  revert n. induction es as [|e es IH]; intros n; [cbn; lia|].
  cbn [run fold_left]. fold (run (step n e) es).
  specialize (IH (step n e)). pose proof (step_pending n e) as Hs.
  cbn [fired] in *. unfold starts in *. destruct e; cbn [List.filter length] in *; lia.
Qed.

Lemma lookup_snoc {X : Type} (l : list X) (x : X) :
  (l ++ [x])%list !! length l = Some x.
Proof. by rewrite lookup_app_r, Nat.sub_diag by lia. Qed.

Lemma timeout_other n i :
  (∀ c, chains n !! i = Some c → ch_timer c = false) → timeout i n = n.
Proof.
  intros Hi. unfold timeout. destruct (chains n !! i) as [c|]; [|done].
  by rewrite (Hi c eq_refl).
Qed.

Lemma start_hovering n0 : idle n0 → hovering n0 (_startCheckboxAnimation n0).
Proof.
  intros [_ Hidle]. unfold _startCheckboxAnimation, next. cbn [chains resolved].
  rewrite lookup_snoc. cbn [ch_deferred]. rewrite lookup_snoc.
  cbn [default from_option id ch_queue backgroundPosition data resolved chains].
  split; [done|]. split; [done|]. split.
  - intros i c Hne Hi. cbn [chains] in Hi.
    rewrite list_lookup_insert_ne in Hi by (by intros Heq; apply Hne).
    apply lookup_app_Some in Hi as [Hi|[Hge Hi]].
    + rewrite Forall_lookup in Hidle. by eapply Hidle.
    + destruct (i - length (chains n0))%nat eqn:E; [lia|done].
  - eexists. split.
    { cbn [chains]. apply list_lookup_insert_eq. rewrite length_app. cbn. lia. }
    split; [done|]. cbn [backgroundPosition ch_queue ch_timer].
    change (stage (-1)) with "-20px 0". apply list_elem_of_here.
Qed.

Lemma timeout_hovering n0 n i : hovering n0 n → hovering n0 (timeout i n).
Proof.
  intros Hh. pose proof Hh as (Hd & Hr & Hother & c & Hc & Hcd & Hstage).
  destruct (decide (i = length (chains n0))) as [->|Hne];
    [|by rewrite timeout_other by (intros c'; by apply Hother)].
  unfold timeout. rewrite Hc. destruct (ch_timer c) eqn:Ht; [|done].
  unfold next. cbn [chains resolved backgroundPosition data].
  rewrite list_lookup_insert_eq by (by eapply lookup_lt_Some).
  cbn [ch_deferred ch_queue]. rewrite Hcd, Hr, lookup_snoc. cbn [default from_option id].
  rewrite !elem_of_cons, elem_of_nil in Hstage.
  destruct Hstage as [H1|[H1|[H1|[H1|[H1|[]]]]]];
    [| | | |congruence]; injection H1 as Hp Hq; rewrite Hq;
    (split; [done|]; split; [done|]; split;
     [ intros j c' Hj Hl; cbn [chains] in Hl;
       rewrite !list_lookup_insert_ne in Hl by (by intros Heq; apply Hj);
       by eapply Hother
     | eexists; split;
       [ cbn [chains]; apply list_lookup_insert_eq; rewrite length_insert;
         by eapply lookup_lt_Some
       | split; [done|]; cbn [backgroundPosition ch_queue ch_timer];
         try rewrite Hp;
         try match goal with
             | |- context [stage ?z] =>
                 let v := eval vm_compute in (stage z) in change (stage z) with v
             end;
         repeat first [apply list_elem_of_here | apply list_elem_of_further] ] ]).
Qed.

Lemma stop_left n0 n : hovering n0 n → left n0 (_stopCheckboxAnimation n).
Proof.
  intros (Hd & Hr & Hother & c & Hc & Hcd & _).
  unfold _stopCheckboxAnimation. rewrite Hd. split; [done|]. split; [done|].
  split; [|split; [done|by exists c]].
  cbn. apply list_lookup_insert_eq. rewrite Hr, length_app. cbn. lia.
Qed.

Lemma timeout_left n0 n i :
  left n0 n →
  left n0 (timeout i n)
  ∧ (i = length (chains n0) → idle (timeout i n))
  ∧ (idle n → idle (timeout i n)).
Proof.
  intros Hl. pose proof Hl as (Hp & Hd & Hr & Hother & c & Hc & Hcd).
  destruct (decide (i = length (chains n0))) as [->|Hne].
  2:{ rewrite timeout_other by (intros c'; by apply Hother).
      split; [done|split; [intros Heq; by destruct Hne|done]]. }
  unfold timeout. rewrite Hc. destruct (ch_timer c) eqn:Ht.
  2:{ split; [done|]. split; [|done]. intros _. split; [done|].
      apply Forall_lookup. intros j c' Hj.
      destruct (decide (j = length (chains n0))) as [->|Hj']; [|by eapply Hother].
      rewrite Hc in Hj. by injection Hj as <-. }
  unfold next. cbn [chains resolved backgroundPosition data].
  rewrite list_lookup_insert_eq by (by eapply lookup_lt_Some).
  cbn [ch_deferred]. rewrite Hcd, Hr. cbn [default from_option id].
  assert (∀ j c', (<[length (chains n0) := mkChain (length (resolved n0)) [] false]>
                    (<[length (chains n0) :=
                         mkChain (length (resolved n0)) (ch_queue c) false]> (chains n)))
                  !! j = Some c' → ch_timer c' = false) as Hall.
  { intros j c' Hj. destruct (decide (j = length (chains n0))) as [->|Hj'].
    - rewrite list_lookup_insert_eq in Hj
        by (rewrite length_insert; by eapply lookup_lt_Some).
      by injection Hj as <-.
    - rewrite !list_lookup_insert_ne in Hj by done. by eapply Hother. }
  split; [|split].
  - split; [done|]. split; [done|]. split; [done|]. split.
    + intros j c' _ Hj. by eapply Hall.
    + eexists. split; [cbn [chains]; apply list_lookup_insert_eq|done].
      rewrite length_insert. by eapply lookup_lt_Some.
  - intros _. split; [done|]. apply Forall_lookup. intros j c' Hj. by eapply Hall.
  - intros _. split; [done|]. apply Forall_lookup. intros j c' Hj. by eapply Hall.
Qed.

Lemma run_app n es es' : run n (es ++ es') = run (run n es) es'.
Proof. apply fold_left_app. Qed.

Lemma run_hovering n0 ts n : hovering n0 n → hovering n0 (run n (map Timeout ts)).
Proof.
  revert n. induction ts as [|i ts IH]; intros n Hn; [done|].
  cbn. apply IH. by apply timeout_hovering.
Qed.

Lemma run_left n0 ts n :
  left n0 n →
  left n0 (run n (map Timeout ts))
  ∧ (idle n ∨ length (chains n0) ∈ ts → idle (run n (map Timeout ts))).
Proof.
  revert n. induction ts as [|i ts IH]; intros n Hn.
  - split; [done|]. intros [Hi|Hin]; [done|by apply elem_of_nil in Hin].
  - destruct (timeout_left n0 n i Hn) as (Hl & Hthis & Hidle).
    destruct (IH _ Hl) as [IHl IHi]. split; [exact IHl|].
    intros [Hi|Hin]; apply IHi.
    + left. by apply Hidle.
    + apply elem_of_cons in Hin as [<-|Hin]; [left; by apply Hthis|by right].
Qed.

(** X24. One pass of the mouse over an idle check box: while the mouse is
    over it, the background position is one of the four stages (-20px to
    -80px), whatever time-outs have fired; once the mouse has left it is
    '0 0' and stays so through the time-outs that follow, and the animation
    data of the node is removed; after the time-out of the call has fired
    once more, no time-out is left. *)
Theorem mouse_out_resets (n0 : node) (ts ts' : list nat) :
  idle n0 →
  let over := run n0 (MouseOver :: map Timeout ts) in
  let out := run over (MouseOut :: map Timeout ts') in
  backgroundPosition over ∈ ["-20px 0"; "-40px 0"; "-60px 0"; "-80px 0"]
  ∧ backgroundPosition out = "0 0"
  ∧ data out = None
  ∧ (length (chains n0) ∈ ts' → idle out).
Proof.
  intros Hidle over out.
  assert (hovering n0 over) as Hover.
  { subst over. cbn [run fold_left step]. apply run_hovering. by apply start_hovering. }
  assert (left n0 out ∧ (length (chains n0) ∈ ts' → idle out)) as [Hout Hend].
  { subst out. cbn [run fold_left step].
    destruct (run_left n0 ts' (_stopCheckboxAnimation over)) as [Hl Hi];
      [by apply stop_left|].
    split; [exact Hl|]. intros Hin. apply Hi. by right. }
  split; [|destruct Hout as (Hp & Hd & _); split; [exact Hp|split; [exact Hd|exact Hend]]].
  destruct Hover as (_ & _ & _ & c & _ & _ & Hstage).
  rewrite !elem_of_cons, elem_of_nil in Hstage. rewrite !elem_of_cons.
  destruct Hstage as [H1|[H1|[H1|[H1|[H1|[]]]]]]; injection H1 as Hp _ _;
    rewrite Hp; tauto.
Qed.

End AnimationMore.

(** ** Instances of the further properties *)

Section ImageInfoInstances.

Import JS ImageInfo.

(** A call for size 200 is resolved; a late failure and a second answer for
    the same call change nothing. *)
Lemma settled_promise_is_final_witness :
  let imageInfo := VObj [("thumburl", VStr "//upload.wikimedia.org/Example.jpg")] in
  let rq := mkRequest (VStr "File:Example.jpg") 200 (VStr "//commons.wikimedia.org/") in
  let w := run (mkWorld Sample.asset []) [Call 200; ApiDone 0 imageInfo] in
  calls w !! 0%nat = Some (mkCall 200 (Some rq) (Resolved imageInfo))
  ∧ calls (run w [Call 400; ApiFail 0 (VStr "late"); ApiDone 0 VNull]) !! 0%nat
    = Some (mkCall 200 (Some rq) (Resolved imageInfo)).
Proof.
  intros imageInfo rq w. split; [reflexivity|].
  destruct (settled_promise_is_final w [Call 400; ApiFail 0 (VStr "late"); ApiDone 0 VNull]
              0 (mkCall 200 (Some rq) (Resolved imageInfo)) eq_refl)
    as (c' & Hc' & _ & _ & Hfinal).
  rewrite Hc'. f_equal. apply Hfinal. discriminate.
Defined.

(** The request for size 200 fails: the next call asks the Api again. *)
Lemma failure_is_not_cached_witness :
  let rq := mkRequest (VStr "File:Example.jpg") 200 (VStr "//commons.wikimedia.org/") in
  let w := step (mkWorld Sample.asset []) (Call 200) in
  calls w !! 0%nat = Some (mkCall 200 (Some rq) Pending)
  ∧ cached (this w) 200 = Ret VUndefined
  ∧ Asset._api (this w) = Sample.api
  ∧ ∃ w2, getImageInfo (fail w 0 (VStr "timeout")) 200 = Ret w2
      ∧ requests w2 = [rq; rq].
Proof.
  intros rq w. split; [reflexivity|]. split; [reflexivity|]. split; [reflexivity|].
  destruct (failure_is_not_cached w 0 200 rq (VStr "timeout") VUndefined
              (VStr "//commons.wikimedia.org/") eq_refl eq_refl eq_refl eq_refl)
    as (_ & _ & _ & w2 & Hget & Hreq).
  exists w2. split; [exact Hget|]. rewrite Hreq. reflexivity.
Defined.

(** Three calls for size 200 before the Api answers: three requests. *)
Lemma open_requests_are_not_shared_witness :
  let rq := mkRequest (VStr "File:Example.jpg") 200 (VStr "//commons.wikimedia.org/") in
  let w := mkWorld Sample.asset [] in
  cached (this w) 200 = Ret VUndefined
  ∧ Asset._api (this w) = Sample.api
  ∧ requests (run w [Call 200; Call 200; Call 200]) = [rq; rq; rq].
Proof.
  intros rq w. split; [reflexivity|]. split; [reflexivity|].
  destruct (open_requests_are_not_shared 3 w 200 VUndefined
              (VStr "//commons.wikimedia.org/") eq_refl eq_refl eq_refl)
    as (_ & _ & Hreq).
  exact Hreq.
Defined.

(** The Api resolves the request for size 200 with [null]: the value is in
    the cache, and the next call asks the Api again. *)
Lemma falsy_result_is_requested_again_witness :
  let rq := mkRequest (VStr "File:Example.jpg") 200 (VStr "//commons.wikimedia.org/") in
  let w := step (mkWorld Sample.asset []) (Call 200) in
  is_Some (Asset._imageInfo (this w))
  ∧ calls w !! 0%nat = Some (mkCall 200 (Some rq) Pending)
  ∧ truthy VNull = false
  ∧ cached (this (done w 0 VNull)) 200 = Ret VNull
  ∧ ∃ w2, getImageInfo (done w 0 VNull) 200 = Ret w2 ∧ requests w2 = [rq; rq].
Proof.
  intros rq w.
  assert (is_Some (Asset._imageInfo (this w))) as H1 by (eexists; reflexivity).
  split; [exact H1|]. split; [reflexivity|]. split; [reflexivity|].
  destruct (falsy_result_is_requested_again w 0 200 rq VNull
              (VStr "//commons.wikimedia.org/") H1 eq_refl eq_refl eq_refl)
    as (_ & Hcached & w2 & Hget & Hreq).
  split; [exact Hcached|]. exists w2. split; [exact Hget|]. rewrite Hreq. reflexivity.
Defined.

(** The sample asset through two calls, an answer and a failure. *)
Lemma cache_holds_resolved_requests_witness :
  Asset._imageInfo Sample.asset = Some ∅
  ∧ from_fresh Sample.asset
      (run (mkWorld Sample.asset [])
         [Call 200; Call 400; ApiDone 0 (VObj []); ApiFail 1 (VStr "timeout"); Call 200]).
Proof.
  split; [reflexivity|].
  apply cache_holds_resolved_requests. reflexivity.
Defined.

End ImageInfoInstances.

Section AssetInstances.

Import JS.

(** A wiki URL in the sixth place; the seventh argument is not read. *)
Lemma Asset_new_string_is_wikiUrl_witness :
  truthy (VStr "File:Example.jpg") = true
  ∧ Asset._wikiUrl
      (Asset.new (VStr "File:Example.jpg") (VStr "Example") (VStr "bitmap") VNull
         Sample.api (VStr "//de.wikipedia.org/") (VStr "//en.wikipedia.org/")).1
    = VStr "//de.wikipedia.org/".
Proof.
  split; [reflexivity|].
  destruct (Asset_new_string_is_wikiUrl (VStr "File:Example.jpg") (VStr "Example")
              (VStr "bitmap") VNull (VStr "//commons.wikimedia.org/")
              (VStr "//en.wikipedia.org/") VUndefined "//de.wikipedia.org/"
              eq_refl eq_refl eq_refl (or_intror eq_refl))
    as (_ & _ & _ & _ & Hurl).
  exact Hurl.
Defined.



End AssetInstances.

Section PageInstances.

Import JS QuestionnairePage.

(** The handlers of page "3" on the sample asset. *)
Lemma every_handler_logs_then_goes_witness :
  ∃ pg, new (Sample.getResult Sample.asset VUndefined) "3" Sample.asset Sample.state = Ret pg
    ∧ Forall (fun b => ∀ e w, handler_outcome w (handler b e w)) (bindings pg).
Proof.
  eexists. split; [reflexivity|].
  apply (every_handler_logs_then_goes (H:=Asset_AssetLike)
           (Sample.getResult Sample.asset VUndefined) "3" Sample.asset Sample.state).
  reflexivity.
Defined.

(** The mouse moves over answer 1 of page "3". *)
Lemma other_events_do_nothing_witness :
  ("mouseover" ∉ ["click"; "keyup"; "keypress"])
  ∧ ∃ pg, new (Sample.getResult Sample.asset VUndefined) "3" Sample.asset Sample.state = Ret pg
      ∧ fire (bindings pg) (answer_item 1) "mouseover" Sample.event Sample.world
        = (Sample.world, Ret tt).
Proof.
  assert ("mouseover" ∉ ["click"; "keyup"; "keypress"]) as Hev
    by (apply (bool_decide_unpack _); vm_compute; exact I).
  split; [exact Hev|]. eexists. split; [reflexivity|].
  apply (other_events_do_nothing (H:=Asset_AssetLike)
           (Sample.getResult Sample.asset VUndefined) "3" Sample.asset Sample.state);
    [reflexivity|exact Hev].
Defined.


(** "result-success" is a page without logic. *)
Lemma pages_without_logic_are_final_witness :
  ("result-success" ∉ logic_pages)
  ∧ fire (bindings (_applyGenerics (mkPage [] []))) (answer_item 1) "click"
      Sample.event Sample.world
    = (Sample.world, Ret tt).
Proof.
  assert ("result-success" ∉ logic_pages) as Hp
    by (apply (bool_decide_unpack _); vm_compute; exact I).
  split; [exact Hp|].
  destruct (pages_without_logic_are_final (H:=Asset_AssetLike)
              (Sample.getResult Sample.asset VUndefined) "result-success" Sample.asset
              Sample.state Hp) as (_ & Hfire & _).
  apply Hfire.
Defined.

(** The enter key on "form-author". *)
Lemma enter_key_confirms_witness :
  "form-author" ∈ text_pages
  ∧ ∃ pg, new (Sample.getResult Sample.asset VUndefined) "form-author" Sample.asset
            Sample.state = Ret pg
      ∧ fire (bindings pg) text_input "keypress" (mkDomEvent 13 VUndefined) Sample.world
        = fire (bindings pg) confirm_link "click" (mkDomEvent 13 VUndefined) Sample.world.
Proof.
  assert ("form-author" ∈ text_pages) as Hp by apply list_elem_of_here.
  split; [exact Hp|].
  destruct (enter_key_confirms (H:=Asset_AssetLike)
              (Sample.getResult Sample.asset VUndefined) "form-author" Sample.asset
              Sample.state Hp) as (pg & target & Hpg & _ & _ & Henter & _).
  exists pg. split; [exact Hpg|]. apply Henter. reflexivity.
Defined.

(** Answer 2 of page "9" with a text typed before. *)
Lemma empty_answer_discards_text_witness :
  "9" ∈ ["form-author"; "form-title"; "form-url"; "9"]
  ∧ ∃ pg, new (Sample.getResult Sample.asset VUndefined) "9" Sample.asset Sample.state
          = Ret pg
      ∧ input (fire (bindings pg) (answer_item 2) "click" Sample.event
                 (mkWorld Sample.state "Jane Doe" [])).1 = "".
Proof.
  assert ("9" ∈ ["form-author"; "form-title"; "form-url"; "9"]) as Hp
    by (repeat first [apply list_elem_of_here | apply list_elem_of_further]).
  split; [exact Hp|].
  destruct (empty_answer_discards_text (H:=Asset_AssetLike)
              (Sample.getResult Sample.asset VUndefined) "9" Sample.asset Sample.state Hp)
    as (pg & target & Hpg & Hclick).
  exists pg. split; [exact Hpg|].
  destruct (Hclick Sample.event (mkWorld Sample.state "Jane Doe" [])) as (st & -> & _).
  reflexivity.
Defined.

(** A name typed on "form-author": an answer of page "3" stays as it is. *)
Lemma evaluateInput_touches_two_answers_witness :
  let st := QuestionnaireState.setValue Sample.state "3" 1 VUndefined in
  let w := mkWorld st " Jane Doe " [] in
  ("3", 1) ≠ ("form-author", 1) ∧ ("3", 1) ≠ ("form-author", 2)
  ∧ QuestionnaireState.getValue (questionnaireState (evaluateInput "form-author" w).1) "3" 1
    = Some (VBool true).
Proof.
  intros st w.
  assert (("3", 1) ≠ ((("form-author", 1)) : string * Z)) as H1 by discriminate.
  assert (("3", 1) ≠ ((("form-author", 2)) : string * Z)) as H2 by discriminate.
  split; [exact H1|]. split; [exact H2|].
  destruct (evaluateInput_touches_two_answers "form-author" w) as (_ & _ & _ & Hother).
  rewrite (Hother "3" 1 H1 H2). reflexivity.
Defined.

(** The sample asset with an author: page "2" goes to "3". *)
Lemma constructed_asset_skips_title_and_url_witness :
  Asset.new (VStr "File:Example.jpg") (VStr "Example") (VStr "bitmap")
    (VLicence LICENCES.cc_by_sa_2_0_de) Sample.api VUndefined VUndefined
    = (Sample.asset, Ret tt)
  ∧ let a := Asset.setAuthors Sample.asset (VArr [VStr "Jane Doe"]) in
    ∃ pg, new (Sample.getResult a VUndefined) "2" a Sample.state = Ret pg
      ∧ ∃ st, fire (bindings pg) (answer_item 1) "click" Sample.event Sample.world
              = (mkWorld st "" [Update st; GoTo "3"], Ret tt).
Proof.
  split; [reflexivity|]. intros a.
  destruct (constructed_asset_skips_title_and_url
              (Sample.getResult a VUndefined)
              (VStr "File:Example.jpg") (VStr "Example") (VStr "bitmap")
              (VLicence LICENCES.cc_by_sa_2_0_de) Sample.api VUndefined VUndefined
              Sample.asset [VStr "Jane Doe"] Sample.state eq_refl)
    as ((pg & Hpg & Hclick) & _).
  exists pg. split; [exact Hpg|]. apply (Hclick Sample.event Sample.world).
Defined.

End PageInstances.

Section RegistryInstances.

Import RegExp LICENCES.

(** Lower case is looked up as upper case. *)
Lemma find_ignores_case_witness :
  ci_equal "cc-by-sa-3.0" "CC-BY-SA-3.0"
  ∧ find "cc-by-sa-3.0" = find "CC-BY-SA-3.0".
Proof.
  assert (ci_equal "cc-by-sa-3.0" "CC-BY-SA-3.0") as Hci
    by (unfold ci_equal; cbn; repeat (constructor; [reflexivity|]); constructor).
  split; [exact Hci|].
  destruct (find_ignores_case "cc-by-sa-3.0" "CC-BY-SA-3.0" Hci) as [_ Hfind].
  exact Hfind.
Defined.

(** A share-alike licence of a version that is not listed. *)
Lemma share_alike_stays_share_alike_witness :
  ci_equal "cc-by-sa" "CC-BY-SA"
  ∧ Licence.isInGroup (find "cc-by-sa-9.0") "ccby" = false.
Proof.
  assert (ci_equal "cc-by-sa" "CC-BY-SA") as Hci
    by (unfold ci_equal; cbn; repeat (constructor; [reflexivity|]); constructor).
  split; [exact Hci|].
  destruct (share_alike_stays_share_alike "cc-by-sa" "-9.0" (or_introl Hci))
    as (_ & _ & _ & Hgroup).
  exact Hgroup.
Defined.

(** A leading blank. *)
Lemma first_character_decides_witness :
  ci_eqb "B" " " = false ∧ ci_eqb "C" " " = false ∧ ci_eqb "P" " " = false
  ∧ find " CC-BY-3.0" = cc.
Proof.
  split; [reflexivity|]. split; [reflexivity|]. split; [reflexivity|].
  destruct (first_character_decides " " "CC-BY-3.0" eq_refl eq_refl eq_refl)
    as [_ Hfind].
  rewrite Hfind. reflexivity.
Defined.

End RegistryInstances.

Section FilenameInstances.

Import JS Replace.

(** The file name of the sample asset. *)
Lemma getFilename_strips_namespace_witness :
  Asset._prefixedFilename Sample.asset = VStr ("File" ++ ":Example.jpg")
  ∧ no_colon "File"
  ∧ getFilename Sample.asset = Ret (VStr "Example.jpg").
Proof.
  assert (no_colon "File") as Hno
    by (unfold no_colon; cbn; repeat (constructor; [discriminate|]); constructor).
  split; [reflexivity|]. split; [exact Hno|].
  destruct (getFilename_strips_namespace Sample.asset) as (Hstrip & _).
  apply (Hstrip "F"%char "ile" "Example.jpg"); [reflexivity|exact Hno].
Defined.

End FilenameInstances.

Section AnimationInstances.

Import Animation.

(** One pass of the mouse over a check box at rest. *)
Lemma mouse_out_resets_witness :
  let n0 := mkNode "0 0" None [] [] in
  idle n0
  ∧ backgroundPosition (run n0 [MouseOver; Timeout 0; Timeout 0])
    ∈ ["-20px 0"; "-40px 0"; "-60px 0"; "-80px 0"]
  ∧ idle (run n0 [MouseOver; Timeout 0; Timeout 0; MouseOut; Timeout 0]).
Proof.
  intros n0.
  assert (idle n0) as Hidle by (split; [reflexivity|constructor]).
  split; [exact Hidle|].
  destruct (mouse_out_resets n0 [0; 0]%nat [0%nat] Hidle) as (Hover & _ & _ & Hend).
  split; [exact Hover|]. apply Hend. apply list_elem_of_here.
Defined.

End AnimationInstances.
